(** * Geometry simplification engine of [analisis_inundaciones_colombia.py]

    A shallow embedding of stage 1 of the script (Douglas-Peucker point
    reduction, ring validity floor, coordinate quantization, geometry
    dispatch) together with the properties stated for it.

    Python values are modelled as they are loaded by [json.load]: numbers are
    arbitrary-precision integers or IEEE-754 binary64 floats, arrays are
    lists.  Exceptions are values of an error monad; the interpreter's
    recursion limit is the [depth] argument of the recursive simplifier.
    A float's [** 2] reaches the C library's [pow], whose last bit differs
    between platforms: the library is a parameter ([Libm]) of everything
    that computes a distance, and the theorems hold for each one. *)

From Stdlib Require Import String ZArith List Bool Lia.
From Stdlib Require Import SpecFloat.
Import ListNotations.
Local Open Scope Z_scope.
Set Warnings "-register-all".

(** ** Exceptions and the error monad *)

Inductive exn : Type :=
| ZeroDivisionError
| OverflowError
| ValueError
| IndexError
| TypeError
| KeyError
| RecursionError.

Inductive result (A : Type) : Type :=
| Ok (a : A)
| Raise (e : exn).
Arguments Ok {A} a.
Arguments Raise {A} e.

Definition bind {A B : Type} (m : result A) (k : A -> result B) : result B :=
  match m with
  | Ok a => k a
  | Raise e => Raise e
  end.

Notation "x <- m ;; k" := (bind m (fun x => k))
  (at level 61, m at next level, right associativity).

Fixpoint mapM {A B : Type} (f : A -> result B) (l : list A) : result (list B) :=
  match l with
  | [] => Ok []
  | a :: l' => b <- f a ;; bs <- mapM f l' ;; Ok (b :: bs)
  end.

(** ** Python numbers *)

Module Num.

(** binary64 *)
Definition prec : Z := 53.
Definition emax : Z := 1024.

Definition float : Type := spec_float.

Inductive num : Type :=
| PyInt (z : Z)
| PyFloat (f : float).

Definition is_inf (f : float) : bool :=
  match f with S754_infinity _ => true | _ => false end.

Definition is_finite (f : float) : bool :=
  match f with S754_zero _ | S754_finite _ _ _ => true | _ => false end.

Definition is_zero (f : float) : bool :=
  match f with S754_zero _ => true | _ => false end.

(** Nearest integer to [n / d], half to even ([n >= 0], [d > 0]). *)
Definition div_near (n d : Z) : Z :=
  let q := n / d in
  let r := n mod d in
  match 2 * r ?= d with
  | Lt => q
  | Gt => q + 1
  | Eq => if Z.even q then q else q + 1
  end.

(** Smallest exponent of a float and largest exponent of a full mantissa. *)
Definition emin : Z := 3 - emax - prec.
Definition etop : Z := emax - prec.

(** A mantissa that rounding carried to [2^prec] moves to the next
    exponent. *)
Definition renorm (q e : Z) : Z * Z :=
  if q =? 2 ^ prec then (2 ^ (prec - 1), e + 1) else (q, e).

(** Nearest binary64 (ties to even) of the rational [(-1)^s * n / d],
    for [n >= 0] and [d > 0]; infinite when beyond the largest float.
    With [u / d] the value in units of the smallest float [2^emin], the
    mantissa is [u / d] itself below [2^prec] units, and its leading
    [prec] bits, rounded, above; [sh] is the exponent over [emin]. *)
Definition float_of_ratio (s : bool) (n d : Z) : float :=
  let u := n * 2 ^ (- emin) in
  let sh := Z.max (Z.log2 (u / d) - (prec - 1)) 0 in
  let q := div_near u (d * 2 ^ sh) in
  let '(m, sh') := renorm q sh in
  match m with
  | Zpos m =>
      if sh' + emin <=? etop then S754_finite s m (sh' + emin)
      else S754_infinity s
  | _ => S754_zero s
  end.

(** [float(z)] : int to float conversion, rounding half to even;
    an int beyond the float range raises. *)
Definition float_of_int (z : Z) : result float :=
  let f := float_of_ratio (z <? 0) (Z.abs z) 1 in
  if is_inf f then Raise OverflowError else Ok f.

Definition to_float (a : num) : result float :=
  match a with
  | PyInt z => float_of_int z
  | PyFloat f => Ok f
  end.

(** Binary arithmetic: int with int stays exact, anything else is carried
    out on floats after converting the int operand. *)
Definition arith (fz : Z -> Z -> Z) (ff : float -> float -> float)
           (a b : num) : result num :=
  match a, b with
  | PyInt x, PyInt y => Ok (PyInt (fz x y))
  | _, _ => x <- to_float a ;; y <- to_float b ;; Ok (PyFloat (ff x y))
  end.

Definition add : num -> num -> result num := arith Z.add (SFadd prec emax).
Definition sub : num -> num -> result num := arith Z.sub (SFsub prec emax).
Definition mul : num -> num -> result num := arith Z.mul (SFmul prec emax).

(** [a / b] : true division. *)
Definition div (a b : num) : result num :=
  match a, b with
  | PyInt x, PyInt y =>
      if y =? 0 then Raise ZeroDivisionError
      else
        let f := float_of_ratio (xorb (x <? 0) (y <? 0)) (Z.abs x) (Z.abs y) in
        if is_inf f then Raise OverflowError else Ok (PyFloat f)
  | _, _ =>
      x <- to_float a ;;
      y <- to_float b ;;
      if is_zero y then Raise ZeroDivisionError
      else Ok (PyFloat (SFdiv prec emax x y))
  end.

(** [math.sqrt(a)] *)
Definition sqrt (a : num) : result num :=
  f <- to_float a ;;
  match f with
  | S754_infinity true | S754_finite true _ _ => Raise ValueError
  | _ => Ok (PyFloat (SFsqrt prec emax f))
  end.

(** Comparisons are exact, also between an int and a float. *)
Inductive xval : Type :=
| XNaN
| XInf (neg : bool)
| XFin (m e : Z).

Definition xval_of_float (f : float) : xval :=
  match f with
  | S754_zero _ => XFin 0 0
  | S754_infinity s => XInf s
  | S754_nan => XNaN
  | S754_finite s m e => XFin (cond_Zopp s (Zpos m)) e
  end.

Definition xval_of (a : num) : xval :=
  match a with
  | PyInt z => XFin z 0
  | PyFloat f => xval_of_float f
  end.

Definition xcompare (a b : xval) : option comparison :=
  match a, b with
  | XNaN, _ | _, XNaN => None
  | XInf true, XInf true => Some Eq
  | XInf false, XInf false => Some Eq
  | XInf true, _ => Some Lt
  | XInf false, _ => Some Gt
  | _, XInf true => Some Gt
  | _, XInf false => Some Lt
  | XFin m1 e1, XFin m2 e2 =>
      let e := Z.min e1 e2 in
      Some (Z.compare (m1 * 2 ^ (e1 - e)) (m2 * 2 ^ (e2 - e)))
  end.

Definition compare (a b : num) : option comparison :=
  xcompare (xval_of a) (xval_of b).

Definition eqb (a b : num) : bool :=
  match compare a b with Some Eq => true | _ => false end.
Definition ltb (a b : num) : bool :=
  match compare a b with Some Lt => true | _ => false end.
Definition gtb (a b : num) : bool :=
  match compare a b with Some Gt => true | _ => false end.

(** What a call into the C library leaves in [errno]: nothing, [ERANGE], or
    another code. *)
Inductive errno : Type := ENONE | ERANGE | EDOM.

(** The platform's C library, as far as the program reaches it:
    [pow(x, 2.0)], with the value it returns and the [errno] it leaves.
    The value is close to the square, and not the same on every platform,
    so nothing is assumed of it. *)
Class Libm : Type := { pow2 : float -> float * errno }.

(** A C library whose [pow(x, 2.0)] is the correctly rounded square and
    leaves [errno] alone; the examples are evaluated with it. *)
#[export] Instance libm_exact : Libm :=
  {| pow2 := fun f => (SFmul prec emax f f, ENONE) |}.

(** After the call: an infinite value is a range error, whatever [errno]
    says, and a range error with a zero value is none. *)
Definition adjust_erange (ix : float) (e : errno) : errno :=
  match e with
  | ENONE => if is_inf ix then ERANGE else ENONE
  | ERANGE => if is_zero ix then ENONE else ERANGE
  | EDOM => EDOM
  end.

(** [a ** 2] : an int stays exact.  On a float the interpreter answers by
    itself for a NaN, an infinity, a zero and [1.0] or [-1.0], and calls
    [pow] on the absolute value otherwise; a range error raises
    [OverflowError], any other [errno] [ValueError]. *)
Definition sq {L : Libm} (a : num) : result num :=
  match a with
  | PyInt x => Ok (PyInt (x * x))
  | PyFloat f =>
      match f with
      | S754_nan => Ok (PyFloat S754_nan)
      | S754_infinity _ => Ok (PyFloat (S754_infinity false))
      | S754_zero _ => Ok (PyFloat (S754_zero false))
      | S754_finite _ m e =>
          let iv := S754_finite false m e in
          if eqb (PyFloat iv) (PyInt 1) then
            Ok (PyFloat (S754_finite false 4503599627370496 (-52)))
          else
            let '(ix, err) := pow2 iv in
            match adjust_erange ix err with
            | ENONE => Ok (PyFloat ix)
            | ERANGE => Raise OverflowError
            | EDOM => Raise ValueError
            end
      end
  end.

(** [min(a, b)] and [max(a, b)] of two arguments: the first is kept
    unless the second is strictly smaller (larger). *)
Definition min2 (a b : num) : num := if ltb b a then b else a.
Definition max2 (a b : num) : num := if gtb b a then b else a.

End Num.
Export Num.

(** ** Rounding to decimal digits: the builtin [round(x, ndigits)] *)

Module Round.

Definition NDIGITS_MAX : Z := 323.
Definition NDIGITS_MIN : Z := -308.

(** A float is first rounded to the nearest decimal with [p] digits after
    the point (half to even, on its exact value), and that decimal is then
    converted back to the nearest float. *)
Definition round_finite (s : bool) (m : positive) (e p : Z) : result float :=
  let n := div_near (Zpos m * 2 ^ Z.max e 0 * 10 ^ Z.max p 0)
                    (2 ^ Z.max (- e) 0 * 10 ^ Z.max (- p) 0) in
  let f := float_of_ratio s (n * 10 ^ Z.max (- p) 0) (10 ^ Z.max p 0) in
  if is_inf f then Raise OverflowError else Ok f.

Definition round_float (f : float) (p : Z) : result float :=
  match f with
  | S754_finite s m e =>
      if NDIGITS_MAX <? p then Ok f
      else if p <? NDIGITS_MIN then Ok (S754_zero s)
      else round_finite s m e p
  | _ => Ok f
  end.

Definition round_int (z p : Z) : Z :=
  if 0 <=? p then z
  else
    let d := 10 ^ (- p) in
    Z.sgn z * (div_near (Z.abs z) d * d).

Definition round (a : num) (p : Z) : result num :=
  match a with
  | PyInt z => Ok (PyInt (round_int z p))
  | PyFloat f => r <- round_float f p ;; Ok (PyFloat r)
  end.

End Round.

(** ** JSON arrays of numbers *)

Inductive value : Type :=
| VNum (n : num)
| VList (l : list value).

(** [v[i]] *)
Definition item (v : value) (i : nat) : result value :=
  match v with
  | VNum _ => Raise TypeError
  | VList l =>
      match nth_error l i with
      | Some x => Ok x
      | None => Raise IndexError
      end
  end.

Definition as_num (v : value) : result num :=
  match v with
  | VNum n => Ok n
  | VList _ => Raise TypeError
  end.

Definition as_list (v : value) : result (list value) :=
  match v with
  | VNum _ => Raise TypeError
  | VList l => Ok l
  end.

(** [a == b] *)
Fixpoint veqb (a b : value) : bool :=
  match a, b with
  | VNum x, VNum y => Num.eqb x y
  | VList l1, VList l2 =>
      (fix go (l1 l2 : list value) : bool :=
         match l1, l2 with
         | [], [] => true
         | x :: l1', y :: l2' => veqb x y && go l1' l2'
         | _, _ => false
         end) l1 l2
  | _, _ => false
  end.

Definition vsub (a b : value) : result num :=
  x <- as_num a ;; y <- as_num b ;; Num.sub x y.

(** ** Distance evaluator *)

(** [math.sqrt((p[0] - a[0])**2 + (p[1] - a[1])**2)] *)
Definition euclidean {L : Libm} (p a : value) : result num :=
  p0 <- item p 0 ;; a0 <- item a 0 ;;
  u <- vsub p0 a0 ;; u2 <- Num.sq u ;;
  p1 <- item p 1 ;; a1 <- item a 1 ;;
  v <- vsub p1 a1 ;; v2 <- Num.sq v ;;
  s <- Num.add u2 v2 ;;
  Num.sqrt s.

(** [inicio[0] == fin[0] and inicio[1] == fin[1]] *)
Definition coincident (inicio fin : value) : result bool :=
  i0 <- item inicio 0 ;; f0 <- item fin 0 ;;
  if veqb i0 f0 then
    i1 <- item inicio 1 ;; f1 <- item fin 1 ;; Ok (veqb i1 f1)
  else Ok false.

(** The branch of [_punto_distancia_a_linea] below its guard. *)
Definition distancia_proyectada {L : Libm} (punto inicio fin : value) : result num :=
  f0 <- item fin 0 ;; i0 <- item inicio 0 ;; dx <- vsub f0 i0 ;;
  f1 <- item fin 1 ;; i1 <- item inicio 1 ;; dy <- vsub f1 i1 ;;
  p0 <- item punto 0 ;; u <- vsub p0 i0 ;; udx <- Num.mul u dx ;;
  p1 <- item punto 1 ;; v <- vsub p1 i1 ;; vdy <- Num.mul v dy ;;
  numer <- Num.add udx vdy ;;
  dx2 <- Num.mul dx dx ;; dy2 <- Num.mul dy dy ;;
  denom <- Num.add dx2 dy2 ;;
  quot <- Num.div numer denom ;;
  let t := Num.max2 (PyInt 0) (Num.min2 (PyInt 1) quot) in
  tdx <- Num.mul t dx ;; i0' <- as_num i0 ;; proj_x <- Num.add i0' tdx ;;
  tdy <- Num.mul t dy ;; i1' <- as_num i1 ;; proj_y <- Num.add i1' tdy ;;
  p0' <- as_num p0 ;; a <- Num.sub p0' proj_x ;; a2 <- Num.sq a ;;
  p1' <- as_num p1 ;; b <- Num.sub p1' proj_y ;; b2 <- Num.sq b ;;
  s <- Num.add a2 b2 ;;
  Num.sqrt s.

Definition _punto_distancia_a_linea {L : Libm} (punto inicio fin : value) : result num :=
  c <- coincident inicio fin ;;
  if c then euclidean punto inicio
  else distancia_proyectada punto inicio fin.

(** ** Line simplifier (Douglas-Peucker) *)

Definition elem (puntos : list value) (i : nat) : result value :=
  match nth_error puntos i with
  | Some x => Ok x
  | None => Raise IndexError
  end.

(** [puntos[-1]] *)
Definition ultimo (puntos : list value) : result value :=
  elem puntos (length puntos - 1).

(** One turn of the loop over the interior indices; the state is
    [(distancia_max, indice_max)]. *)
Definition scan_step {L : Libm} (puntos : list value) (st : num * nat) (i : nat)
  : result (num * nat) :=
  pi <- elem puntos i ;;
  p0 <- elem puntos 0 ;;
  pl <- ultimo puntos ;;
  d <- _punto_distancia_a_linea pi p0 pl ;;
  if Num.gtb d (fst st) then Ok (d, i) else Ok st.

Fixpoint foldM {S A : Type} (f : S -> A -> result S) (l : list A) (s : S)
  : result S :=
  match l with
  | [] => Ok s
  | a :: l' => s' <- f s a ;; foldM f l' s'
  end.

(** [for i in range(1, len(puntos) - 1)] from [distancia_max = 0],
    [indice_max = 0]. *)
Definition scan {L : Libm} (puntos : list value) : result (num * nat) :=
  foldM (scan_step puntos) (seq 1 (length puntos - 2)) (PyInt 0, 0%nat).

(** [depth] bounds the nesting of recursive calls, as the interpreter's
    recursion limit does. *)
Fixpoint _douglas_peucker {L : Libm} (depth : nat) (puntos : list value) (epsilon : num)
  : result (list value) :=
  match depth with
  | O => Raise RecursionError
  | S depth' =>
      if (length puntos <=? 2)%nat then Ok puntos
      else
        st <- scan puntos ;;
        let '(distancia_max, indice_max) := st in
        if Num.gtb distancia_max epsilon then
          izquierda <- _douglas_peucker depth' (firstn (S indice_max) puntos) epsilon ;;
          derecha <- _douglas_peucker depth' (skipn indice_max puntos) epsilon ;;
          Ok (removelast izquierda ++ derecha)
        else
          p0 <- elem puntos 0 ;;
          pl <- ultimo puntos ;;
          Ok [p0; pl]
  end.

(** ** Ring normalizer *)

Definition _simplificar_anillo {L : Libm} (depth : nat) (anillo : list value) (epsilon : num)
  : result (list value) :=
  simplificado <- _douglas_peucker depth anillo epsilon ;;
  if (length simplificado <? 4)%nat then
    Ok (if (4 <=? length anillo)%nat then anillo else anillo)
  else Ok simplificado.

(** ** Coordinate quantizer *)

(** [coords[0]] being a number makes [coords] a leaf; anything else is
    mapped element by element. *)
Fixpoint _redondear_coordenadas (coords : value) (precision : Z) : result value :=
  match coords with
  | VNum _ => Raise TypeError
  | VList [] => Raise IndexError
  | VList (VNum x :: _) =>
      r0 <- Round.round x precision ;;
      c1 <- item coords 1 ;;
      y <- as_num c1 ;;
      r1 <- Round.round y precision ;;
      Ok (VList [VNum r0; VNum r1])
  | VList ((VList _ :: _) as l) =>
      rs <- (fix each (l : list value) : result (list value) :=
               match l with
               | [] => Ok []
               | c :: l' =>
                   r <- _redondear_coordenadas c precision ;;
                   rs <- each l' ;;
                   Ok (r :: rs)
               end) l ;;
      Ok (VList rs)
  end.

(** ** Geometry transformer *)

(** A GeoJSON geometry object: the two members the code reads; [None] is an
    absent key. *)
Record geometry : Type := Geometry {
  g_type : option String.string;
  g_coordinates : option value
}.

Definition lookup {A : Type} (m : option A) : result A :=
  match m with
  | Some a => Ok a
  | None => Raise KeyError
  end.

(** [[_simplificar_anillo(anillo, epsilon) for anillo in poligono]] *)
Definition simplificar_anillos {L : Libm} (depth : nat) (poligono : value) (epsilon : num)
  : result value :=
  anillos <- as_list poligono ;;
  rs <- mapM (fun anillo =>
                pts <- as_list anillo ;;
                r <- _simplificar_anillo depth pts epsilon ;;
                Ok (VList r)) anillos ;;
  Ok (VList rs).

Definition _simplificar_geometria {L : Libm} (depth : nat) (geom : geometry) (epsilon : num)
  : result geometry :=
  tipo <- lookup (g_type geom) ;;
  coords <- lookup (g_coordinates geom) ;;
  if String.eqb tipo "Polygon"%string then
    nuevos <- simplificar_anillos depth coords epsilon ;;
    Ok (Geometry (g_type geom) (Some nuevos))
  else if String.eqb tipo "MultiPolygon"%string then
    poligonos <- as_list coords ;;
    nuevos <- mapM (fun poligono => simplificar_anillos depth poligono epsilon)
                   poligonos ;;
    Ok (Geometry (g_type geom) (Some (VList nuevos)))
  else Ok geom.

(** ** Collection processor *)

(** Counts the points in a coordinate structure: a leaf counts one. *)
Fixpoint _contar_coordenadas (coords : value) : result nat :=
  match coords with
  | VNum _ => Raise TypeError
  | VList [] => Raise IndexError
  | VList (VNum _ :: _) => Ok 1%nat
  | VList ((VList _ :: _) as l) =>
      (fix suma (l : list value) : result nat :=
         match l with
         | [] => Ok 0%nat
         | c :: l' =>
             n <- _contar_coordenadas c ;;
             s <- suma l' ;;
             Ok (n + s)%nat
         end) l
  end.

(** A JSON object as the list of its members. *)
Fixpoint member {V : Type} (k : string) (d : list (string * V)) : option V :=
  match d with
  | [] => None
  | (k', v) :: d' => if String.eqb k k' then Some v else member k d'
  end.

(** A GeoJSON feature: its geometry and its property mapping, [None] for an
    absent key. *)
Record feature (V : Type) : Type := Feature {
  f_geometry : option geometry;
  f_properties : option (list (string * V))
}.
Arguments Feature {V} _ _.
Arguments f_geometry {V} _.
Arguments f_properties {V} _.

(** The tolerance and the precision that [simplificar_geojson] passes. *)
Definition EPSILON : num := PyFloat (float_of_ratio false 8 1000).
Definition PRECISION : Z := 3.

(** The body of the loop over [geo['features']]. *)
Definition procesar_feature {L : Libm} {V : Type} (depth : nat) (feat : feature V)
  : result (feature V) :=
  geom <- lookup (f_geometry feat) ;;
  geom <- _simplificar_geometria depth geom EPSILON ;;
  coords <- lookup (g_coordinates geom) ;;
  coords <- _redondear_coordenadas coords PRECISION ;;
  let geom := Geometry (g_type geom) (Some coords) in
  props <- lookup (f_properties feat) ;;
  c <- lookup (member "DPTOMPIO" props) ;;
  props <- lookup (f_properties feat) ;;
  n <- lookup (member "MPIO_CNMBR" props) ;;
  Ok (Feature (Some geom) (Some [("c"%string, c); ("n"%string, n)])).

(** [sum(_contar_coordenadas(feat['geometry']['coordinates']) for feat in
    geo['features'])] *)
Fixpoint contar_features {V : Type} (features : list (feature V)) : result nat :=
  match features with
  | [] => Ok 0%nat
  | feat :: rest =>
      geom <- lookup (f_geometry feat) ;;
      coords <- lookup (g_coordinates geom) ;;
      n <- _contar_coordenadas coords ;;
      s <- contar_features rest ;;
      Ok (n + s)%nat
  end.

(** What [simplificar_geojson] computes between reading and writing: the
    processed features with the point counts before and after and the
    percentage it prints. *)
Record resumen (V : Type) : Type := Resumen {
  r_features : list (feature V);
  coords_antes : nat;
  coords_despues : nat;
  reduccion : num
}.
Arguments Resumen {V} _ _ _ _.
Arguments r_features {V} _.
Arguments coords_antes {V} _.
Arguments coords_despues {V} _.
Arguments reduccion {V} _.

Definition simplificar_geojson {L : Libm} {V : Type} (depth : nat) (features : list (feature V))
  : result (resumen V) :=
  antes <- contar_features features ;;
  procesados <- mapM (procesar_feature depth) features ;;
  despues <- contar_features procesados ;;
  q <- Num.div (PyInt (Z.of_nat despues)) (PyInt (Z.of_nat antes)) ;;
  r <- Num.sub (PyInt 1) q ;;
  red <- Num.mul r (PyInt 100) ;;
  Ok (Resumen procesados antes despues red).

(** ** Specification vocabulary *)

(** [s] is obtained from [l] by deleting elements, keeping the order. *)
Inductive subsequence {A : Type} : list A -> list A -> Prop :=
| sub_nil : subsequence [] []
| sub_keep (x : A) (s l : list A) : subsequence s l -> subsequence (x :: s) (x :: l)
| sub_drop (x : A) (s l : list A) : subsequence s l -> subsequence s (x :: l).

(** The distance evaluator returns normally on every triple of points of
    [puntos]. *)
Definition distance_defined {L : Libm} (puntos : list value) : Prop :=
  forall p a b, In p puntos -> In a puntos -> In b puntos ->
                exists d, _punto_distancia_a_linea p a b = Ok d.

(** A point with at least its two coordinates. *)
Definition is_point (v : value) : Prop :=
  exists x y rest, v = VList (VNum x :: VNum y :: rest).

(** Either nothing beat the initial [distancia_max = 0], or the recorded
    index is one the loop visited. *)
Definition scan_inv (lo hi : nat) (st : num * nat) : Prop :=
  st = (PyInt 0, 0%nat) \/ (lo <= snd st <= hi)%nat.

(** Everything that holds of a returned list: it is a subsequence of the
    input with the same first and last element, and two points remain of
    two or more. *)
Definition simplified (r puntos : list value) : Prop :=
  subsequence r puntos /\
  hd_error r = hd_error puntos /\
  (forall d, last r d = last puntos d) /\
  (2 <= length puntos -> 2 <= length r)%nat.




(** What the quantizer does, in the words of its description: a leaf (an
    array that starts with a number) becomes the pair of its first two
    components, each rounded, whatever follows them; any other array is
    rebuilt element for element. *)
Inductive quantized (p : Z) : value -> value -> Prop :=
| quantized_leaf x y rest rx ry :
    Round.round x p = Ok rx -> Round.round y p = Ok ry ->
    quantized p (VList (VNum x :: VNum y :: rest)) (VList [VNum rx; VNum ry])
| quantized_node c l rs :
    Forall2 (quantized p) (VList c :: l) rs ->
    quantized p (VList (VList c :: l)) (VList rs).

(** [q] is a nearest integer to [n / d], and even when there are two. *)
Definition nearest_even (n d q : Z) : Prop :=
  2 * Z.abs (n - q * d) < d \/ (2 * Z.abs (n - q * d) = d /\ Z.even q = true).

(** The choices of [float_of_ratio] for [u / d] units of [2^emin]: exponent
    over [emin], size of one unit of the mantissa (for a denominator [P]),
    mantissa, and both after the carry.  [52] is [prec - 1]. *)
Definition shift (u d : Z) : Z := Z.max (Z.log2 (u / d) - 52) 0.
Definition step (P sh : Z) : Z := P * 2 ^ sh.
Definition mant (P u : Z) : Z := div_near u (step P (shift u P)).
Definition rnd (P u : Z) : Z * Z := renorm (mant P u) (shift u P).

(** The mantissas and exponents (over [emin]) of floats. *)
Definition canonical (m sh : Z) : Prop :=
  (2 ^ 52 <= m < 2 ^ 53 /\ 0 <= sh) \/ (0 < m < 2 ^ 52 /\ sh = 0).

(** The number of smallest floats in one. *)
Definition W : Z := 2 ^ (- emin).

(** Numbers as [json.load] produces them: every float is a binary64. *)
Definition valid_num (a : num) : Prop :=
  match a with
  | PyInt _ => True
  | PyFloat f => valid_binary prec emax f = true
  end.

Inductive valid_value : value -> Prop :=
| valid_VNum n : valid_num n -> valid_value (VNum n)
| valid_VList l : Forall valid_value l -> valid_value (VList l).

(** ** Sample data *)

(** The float written [n / 10^k] in decimal. *)
Definition decimal (n : Z) (k : Z) : num :=
  PyFloat (float_of_ratio (n <? 0) (Z.abs n) (10 ^ k)).

Definition punto (x y : num) : value := VList [VNum x; VNum y].
Definition punto_int (x y : Z) : value := punto (PyInt x) (PyInt y).

Definition cuadrado : list value :=
  [punto_int 0 0; punto_int 0 10; punto_int 10 10; punto_int 10 0; punto_int 0 0].

Definition casi_recto : list value :=
  [punto_int 0 0; punto (PyInt 0) (decimal 5001 3); punto_int 0 10;
   punto_int 10 10; punto_int 10 0; punto_int 0 0].

Definition triangulo : list value :=
  [punto_int 0 0; punto_int 5 10; punto_int 10 0; punto_int 0 0].

Definition anillo_corto : list value :=
  [punto_int 0 0; punto_int 1 1; punto_int 0 0].

Definition repetido : list value :=
  [punto_int 0 0; punto_int 0 0; punto_int 0 0].

Definition geometria_punto : geometry :=
  Geometry (Some "Point"%string) (Some (punto_int 1 2)).

(** A polygon with one ring of two points, the first carrying an altitude. *)
Definition con_altitud : value :=
  VList [VList [VList [VNum (decimal 123456 5); VNum (decimal 25 1); VNum (PyInt 99)];
                punto (PyInt 7) (decimal (-74081749) 6)]].

(** Sum of the counts of the elements of an array. *)
Fixpoint sumM {A : Type} (f : A -> result nat) (l : list A) : result nat :=
  match l with
  | [] => Ok 0%nat
  | a :: l' => n <- f a ;; s <- sumM f l' ;; Ok (n + s)%nat
  end.

(** A ring whose first and last point are equal under [==]. *)
Definition closed (anillo : list value) : Prop :=
  exists p0 pl, elem anillo 0 = Ok p0 /\ ultimo anillo = Ok pl /\
                veqb p0 pl = true.

(** [p] is no farther than [epsilon] from the chord [p0]-[pl], as the
    simplifier tests it: the distance is computed and is not [> epsilon]. *)
Definition cerca {L : Libm} (epsilon : num) (p0 pl p : value) : Prop :=
  exists d, _punto_distancia_a_linea p p0 pl = Ok d /\
            Num.gtb d epsilon = false.

(** [within epsilon puntos r]: [r] keeps the two ends of [puntos], and the
    points dropped between two consecutive points of [r] are all [cerca] of
    the chord that joins them. *)
Inductive within {L : Libm} (epsilon : num) : list value -> list value -> Prop :=
| within_nil : within epsilon [] []
| within_one p : within epsilon [p] [p]
| within_chord p0 medio pl resto r :
    (forall p, In p medio -> cerca epsilon p0 pl p) ->
    within epsilon (pl :: resto) (pl :: r) ->
    within epsilon (p0 :: medio ++ pl :: resto) (p0 :: pl :: r).

(** The loop of [scan] over the interior points themselves, from the state
    [st] and the index [i] of the first of them. *)
Fixpoint scan_from {L : Libm} (p0 pl : value) (medio : list value) (st : num * nat)
  (i : nat) : result (num * nat) :=
  match medio with
  | [] => Ok st
  | p :: medio' =>
      d <- _punto_distancia_a_linea p p0 pl ;;
      scan_from p0 pl medio' (if Num.gtb d (fst st) then (d, i) else st) (S i)
  end.

(** A float that is zero, a NaN, or has its sign bit clear. *)
Definition sin_signo (f : float) : Prop :=
  match f with
  | S754_infinity true | S754_finite true _ _ => False
  | _ => True
  end.

(** A collection of one municipality: a square with a bump of a thousandth
    of a degree on one side, and three properties. *)
Definition muestra : list (feature string) :=
  [Feature
     (Some (Geometry (Some "Polygon"%string)
              (Some (VList [VList [punto (decimal 0 0) (decimal 0 0);
                                   punto (decimal 1 3) (decimal 5 1);
                                   punto (decimal 0 0) (decimal 1 0);
                                   punto (decimal 1 0) (decimal 1 0);
                                   punto (decimal 1 0) (decimal 0 0);
                                   punto (decimal 0 0) (decimal 0 0)]]))))
     (Some [("DPTOMPIO", "05001"); ("MPIO_CNMBR", "MEDELLIN");
            ("AREA", "380.6")]%string)].

Definition resumen_muestra : resumen string :=
  Eval vm_compute in
    match simplificar_geojson 8 muestra with
    | Ok r => r
    | Raise _ => Resumen [] 0 0 (PyInt 0)
    end.

(** * Properties *)

(** ** The error monad *)

Lemma bind_Ok {A B : Type} (m : result A) (k : A -> result B) (b : B) :
  bind m k = Ok b -> exists a, m = Ok a /\ k a = Ok b.
Proof.
  destruct m as [a|e]; simpl; intros H; [now exists a | discriminate].
Qed.

Tactic Notation "inv_bind" hyp(H) :=
  let a := fresh "a" in
  let Ha := fresh "Ha" in
  apply bind_Ok in H; destruct H as (a & Ha & H).

Tactic Notation "inv_bind" hyp(H) "as" simple_intropattern(a) ident(Ha) :=
  apply bind_Ok in H; destruct H as (a & Ha & H).

Lemma foldM_app {S A : Type} (f : S -> A -> result S) (l1 l2 : list A) (s : S) :
  foldM f (l1 ++ l2) s = (s' <- foldM f l1 s ;; foldM f l2 s').
Proof.
  revert s; induction l1 as [|a l1 IH]; simpl; intros s; [reflexivity|].
  destruct (f s a); simpl; auto.
Qed.

(** ** Lists *)

Section Lists.
Context {A : Type}.
Implicit Types (l s : list A).
Local Open Scope nat_scope.

Lemma subsequence_refl l : subsequence l l.
Proof. induction l; constructor; auto. Qed.

Lemma subsequence_nil l : subsequence [] l.
Proof. induction l; constructor; auto. Qed.

Lemma subsequence_app s1 l1 s2 l2 :
  subsequence s1 l1 -> subsequence s2 l2 -> subsequence (s1 ++ s2) (l1 ++ l2).
Proof. induction 1; simpl; intros; try constructor; auto. Qed.

Lemma subsequence_length s l : subsequence s l -> length s <= length l.
Proof. induction 1; simpl; lia. Qed.

Lemma subsequence_cons_inv x s l : subsequence (x :: s) l -> subsequence s l.
Proof.
  remember (x :: s) as xs eqn:E. intros H; revert x s E.
  induction H; intros y t E; try discriminate.
  - injection E as -> ->. now constructor.
  - constructor. eapply IHsubsequence; eauto.
Qed.

Lemma subsequence_removelast s l :
  subsequence s l -> subsequence (removelast s) (removelast l).
Proof.
  induction 1 as [|x s l H IH|x s l H IH].
  - constructor.
  - destruct s as [|y s].
    + simpl. destruct l; [constructor|]. apply subsequence_nil.
    + change (removelast (x :: y :: s)) with (x :: removelast (y :: s)).
      destruct l as [|z l]; [inversion H|].
      change (removelast (x :: z :: l)) with (x :: removelast (z :: l)).
      now constructor.
  - destruct l as [|z l].
    + inversion H; subst. constructor.
    + change (removelast (x :: z :: l)) with (x :: removelast (z :: l)).
      now constructor.
Qed.

Lemma removelast_firstn_S n l :
  n < length l -> removelast (firstn (S n) l) = firstn n l.
Proof.
  revert l; induction n as [|n IH]; intros [|a l] Hn; simpl in *; try lia.
  - now destruct l.
  - destruct l as [|b l]; simpl in *; [lia|].
    f_equal. apply (IH (b :: l)). simpl; lia.
Qed.

Lemma nth_error_last l d :
  l <> [] -> nth_error l (length l - 1) = Some (last l d).
Proof.
  induction l as [|a l IH]; [congruence|]; intros _.
  destruct l as [|b l]; [reflexivity|].
  change (last (a :: b :: l) d) with (last (b :: l) d).
  rewrite <- IH by discriminate. simpl.
  now replace (length l - 0) with (length l) by lia.
Qed.

Lemma subsequence_single x l : In x l -> subsequence [x] l.
Proof.
  induction l as [|a l IH]; simpl; [tauto|].
  intros [->|H]; constructor; auto using subsequence_nil.
Qed.

Lemma last_In l d : l <> [] -> In (last l d) l.
Proof.
  induction l as [|a l IH]; [congruence|]; intros _.
  destruct l as [|b l]; [now left|].
  right. apply IH. discriminate.
Qed.

Lemma last_skipn n l d : n < length l -> last (skipn n l) d = last l d.
Proof.
  revert l; induction n as [|n IH]; intros [|a l] Hn; simpl in *; try lia; auto.
  rewrite IH by lia. destruct l; [simpl in Hn; lia | reflexivity].
Qed.

Lemma In_firstn n l x : In x (firstn n l) -> In x l.
Proof.
  revert l; induction n as [|n IH]; intros [|a l]; simpl; try tauto.
  intros [->|H]; auto.
Qed.

Lemma In_skipn n l x : In x (skipn n l) -> In x l.
Proof.
  revert l; induction n as [|n IH]; intros [|a l]; simpl; try tauto.
  intros H; auto.
Qed.

Lemma hd_error_firstn n l : 0 < n -> hd_error (firstn n l) = hd_error l.
Proof. destruct n; [lia|]. now destruct l. Qed.

Lemma hd_error_app l1 l2 : l1 <> [] -> hd_error (l1 ++ l2) = hd_error l1.
Proof. destruct l1; [congruence | reflexivity]. Qed.

Lemma removelast_nonnil l : 2 <= length l -> removelast l <> [].
Proof. destruct l as [|a [|b l]]; simpl; try lia. discriminate. Qed.

Lemma hd_error_removelast l :
  2 <= length l -> hd_error (removelast l) = hd_error l.
Proof. destruct l as [|a [|b l]]; simpl; try lia. reflexivity. Qed.

Lemma length_removelast l : length (removelast l) = length l - 1.
Proof.
  induction l as [|a l IH]; [reflexivity|].
  destruct l as [|b l]; [reflexivity|].
  change (removelast (a :: b :: l)) with (a :: removelast (b :: l)).
  simpl length in *. rewrite IH. lia.
Qed.
End Lists.

(** ** The scan for the farthest interior point *)

Section Scan.
Context {L : Libm}.
Local Open Scope nat_scope.

Lemma scan_step_inv puntos st i st' lo hi :
  scan_step puntos st i = Ok st' -> lo <= i <= hi ->
  scan_inv lo hi st -> scan_inv lo hi st'.
Proof.
  unfold scan_step. intros H Hi Hst.
  do 4 inv_bind H.
  destruct (Num.gtb _ _); injection H as <-; [right; simpl; lia | assumption].
Qed.

Lemma foldM_scan_inv puntos lo hi l : forall st st',
  foldM (scan_step puntos) l st = Ok st' ->
  Forall (fun i => lo <= i <= hi) l ->
  scan_inv lo hi st -> scan_inv lo hi st'.
Proof.
  induction l as [|i l IH]; simpl; intros st st' H Hl Hst.
  - now injection H as <-.
  - inv_bind H. inversion Hl; subst.
    eapply IH; eauto using scan_step_inv.
Qed.

Lemma scan_index puntos d i :
  scan puntos = Ok (d, i) ->
  (d = PyInt 0 /\ i = 0) \/ 1 <= i <= length puntos - 2.
Proof.
  unfold scan. intros H.
  apply (foldM_scan_inv _ 1 (length puntos - 2)) in H.
  - destruct H as [[= -> ->]|H]; [left | right]; auto.
  - apply Forall_forall. intros j Hj. apply in_seq in Hj. lia.
  - now left.
Qed.

Lemma elem_defined (puntos : list value) i :
  i < length puntos -> exists p, elem puntos i = Ok p /\ In p puntos.
Proof.
  intros Hi. unfold elem.
  destruct (nth_error puntos i) as [p|] eqn:E.
  - exists p. split; auto. eapply nth_error_In; eauto.
  - apply nth_error_None in E. lia.
Qed.

Lemma scan_defined puntos :
  distance_defined puntos -> exists st, scan puntos = Ok st.
Proof.
  intros Hd. unfold scan.
  generalize (PyInt 0, 0).
  assert (Hl : Forall (fun i => i < length puntos) (seq 1 (length puntos - 2))).
  { apply Forall_forall. intros j Hj. apply in_seq in Hj. lia. }
  induction Hl as [|i l Hi Hl IH]; simpl; intros st; [eauto|].
  unfold scan_step at 1.
  destruct (elem_defined puntos i Hi) as (pi & -> & Hpi). simpl.
  destruct (elem_defined puntos 0) as (p0 & -> & Hp0); [lia|]. simpl.
  unfold ultimo.
  destruct (elem_defined puntos (length puntos - 1)) as (pl & -> & Hpl); [lia|].
  simpl.
  destruct (Hd pi p0 pl Hpi Hp0 Hpl) as (d & ->). simpl.
  destruct (Num.gtb d (fst st)); simpl; apply IH.
Qed.
End Scan.

(** ** Shape of the simplifier's result *)

Section Simplifier.
Context {L : Libm}.
Local Open Scope nat_scope.

Lemma last_app_r {A : Type} (l1 l2 : list A) d :
  l2 <> [] -> last (l1 ++ l2) d = last l2 d.
Proof.
  intros H. induction l1 as [|a l1 IH]; [reflexivity|].
  simpl app. destruct (l1 ++ l2) eqn:E.
  - apply app_eq_nil in E. tauto.
  - rewrite <- IH. reflexivity.
Qed.

Lemma douglas_peucker_S depth puntos epsilon :
  _douglas_peucker (S depth) puntos epsilon =
  if length puntos <=? 2 then Ok puntos
  else
    st <- scan puntos ;;
    if Num.gtb (fst st) epsilon then
      izquierda <- _douglas_peucker depth (firstn (S (snd st)) puntos) epsilon ;;
      derecha <- _douglas_peucker depth (skipn (snd st) puntos) epsilon ;;
      Ok (removelast izquierda ++ derecha)
    else
      p0 <- elem puntos 0 ;;
      pl <- ultimo puntos ;;
      Ok [p0; pl].
Proof.
  simpl. destruct (length puntos <=? 2); [reflexivity|].
  destruct (scan puntos) as [[d i]|]; reflexivity.
Qed.

Lemma douglas_peucker_short depth puntos epsilon :
  length puntos <= 2 ->
  _douglas_peucker (S depth) puntos epsilon = Ok puntos.
Proof.
  intros H. simpl. apply Nat.leb_le in H. now rewrite H.
Qed.

Lemma simplified_refl puntos : simplified puntos puntos.
Proof. repeat split; auto using subsequence_refl. Qed.

Lemma simplified_ends puntos p0 pl :
  3 <= length puntos ->
  elem puntos 0 = Ok p0 -> ultimo puntos = Ok pl ->
  simplified [p0; pl] puntos.
Proof.
  unfold ultimo, elem. intros Hl H0 Hn.
  destruct puntos as [|a l]; [simpl in Hl; lia|].
  simpl in H0. injection H0 as ->.
  destruct (nth_error (p0 :: l) (length (p0 :: l) - 1)) eqn:E; [|discriminate].
  injection Hn as ->.
  rewrite (nth_error_last _ p0) in E by discriminate. injection E as E.
  destruct l as [|b l]; [simpl in Hl; lia|].
  change (last (p0 :: b :: l) p0) with (last (b :: l) p0) in E.
  repeat split.
  - constructor. apply subsequence_single. rewrite <- E.
    apply last_In. discriminate.
  - intros d. change (last (p0 :: b :: l) d) with (last (b :: l) d).
    rewrite <- E. simpl.
    clear. revert b; induction l as [|c l IH]; intros b; [reflexivity|].
    change (last (b :: c :: l) p0) with (last (c :: l) p0).
    change (last (b :: c :: l) d) with (last (c :: l) d). apply IH.
  - simpl; lia.
Qed.

Lemma simplified_join puntos i izquierda derecha :
  3 <= length puntos -> i <= length puntos - 2 ->
  simplified izquierda (firstn (S i) puntos) ->
  simplified derecha (skipn i puntos) ->
  simplified (removelast izquierda ++ derecha) puntos.
Proof.
  intros Hl Hi (Ls & Lh & _ & Ll) (Rs & Rh & Rl & Rn).
  assert (HR : 2 <= length (skipn i puntos)) by (rewrite length_skipn; lia).
  assert (Hd : derecha <> []).
  { specialize (Rn HR). destruct derecha; [simpl in Rn; lia | discriminate]. }
  repeat split.
  - rewrite <- (firstn_skipn i puntos).
    apply subsequence_app; auto.
    rewrite <- (removelast_firstn_S i puntos) by lia.
    now apply subsequence_removelast.
  - destruct i as [|i].
    + assert (E : removelast izquierda = []).
      { apply subsequence_length in Ls. rewrite length_firstn in Ls.
        destruct izquierda as [|a [|b l]]; auto.
        simpl length in Ls. lia. }
      rewrite E. simpl. exact Rh.
    + assert (HL : 2 <= length izquierda).
      { apply Ll. rewrite length_firstn. lia. }
      rewrite hd_error_app by now apply removelast_nonnil.
      rewrite hd_error_removelast by assumption.
      rewrite Lh. apply hd_error_firstn. lia.
  - intros d. rewrite last_app_r by assumption.
    rewrite Rl. apply last_skipn. lia.
  - intros _. rewrite length_app. specialize (Rn HR). lia.
Qed.

Lemma douglas_peucker_simplified depth : forall puntos epsilon r,
  _douglas_peucker depth puntos epsilon = Ok r -> simplified r puntos.
Proof.
  induction depth as [|depth IH]; intros puntos epsilon r H; [discriminate|].
  simpl in H.
  destruct (length puntos <=? 2) eqn:Hlen.
  - injection H as <-. apply simplified_refl.
  - apply Nat.leb_gt in Hlen.
    inv_bind H as [distancia_max indice_max] Hscan.
    destruct (Num.gtb distancia_max epsilon).
    + inv_bind H as izquierda Hizq. inv_bind H as derecha Hder.
      injection H as <-.
      apply scan_index in Hscan.
      apply (simplified_join puntos indice_max); eauto; lia.
    + inv_bind H as p0 Hp0. inv_bind H as pl Hpl. injection H as <-.
      apply simplified_ends; auto.
Qed.

(** The simplifier returns when the distance evaluator does, the tolerance
    is not negative and the recursion limit exceeds the number of points. *)
Lemma douglas_peucker_returns depth : forall puntos epsilon,
  Num.gtb (PyInt 0) epsilon = false ->
  distance_defined puntos ->
  length puntos <= S depth ->
  exists r, _douglas_peucker (S depth) puntos epsilon = Ok r.
Proof.
  induction depth as [|depth IH]; intros puntos epsilon He Hd Hl.
  - exists puntos. apply douglas_peucker_short. lia.
  - rewrite douglas_peucker_S.
    destruct (length puntos <=? 2) eqn:Hlen; [eauto|].
    apply Nat.leb_gt in Hlen.
    destruct (scan_defined puntos Hd) as ([dmax imax] & Hs).
    rewrite Hs. cbn [bind fst snd].
    destruct (Num.gtb dmax epsilon) eqn:Hg.
    + apply scan_index in Hs. destruct Hs as [[-> ->]|Hi]; [congruence|].
      destruct (IH (firstn (S imax) puntos) epsilon He) as (izq & ->).
      { intros p a b Hp Ha Hb. apply Hd; eapply In_firstn; eauto. }
      { rewrite length_firstn. lia. }
      destruct (IH (skipn imax puntos) epsilon He) as (der & ->).
      { intros p a b Hp Ha Hb. apply Hd; eapply In_skipn; eauto. }
      { rewrite length_skipn. lia. }
      simpl. eauto.
    + destruct (elem_defined puntos 0) as (p0 & -> & _); [lia|].
      unfold ultimo.
      destruct (elem_defined puntos (length puntos - 1)) as (pl & -> & _); [lia|].
      simpl. eauto.
Qed.
End Simplifier.

(** ** Comparing tolerances *)

Section Compare.
Local Open Scope Z_scope.

Lemma fin_compare_scaled m1 e1 m2 e2 E :
  E <= e1 -> E <= e2 ->
  (m1 * 2 ^ (e1 - Z.min e1 e2) ?= m2 * 2 ^ (e2 - Z.min e1 e2)) =
  (m1 * 2 ^ (e1 - E) ?= m2 * 2 ^ (e2 - E)).
Proof.
  intros H1 H2.
  set (k := Z.min e1 e2 - E).
  assert (Hk : 0 <= k) by (unfold k; lia).
  replace (e1 - E) with ((e1 - Z.min e1 e2) + k) by (unfold k; lia).
  replace (e2 - E) with ((e2 - Z.min e1 e2) + k) by (unfold k; lia).
  rewrite !Z.pow_add_r by lia.
  rewrite !Z.mul_assoc.
  apply Zmult_compare_compat_r.
  apply Z.lt_gt, Z.pow_pos_nonneg; lia.
Qed.

Lemma xcompare_trans_gt a b c :
  Num.xcompare a b = Some Gt -> Num.xcompare c b = Some Lt ->
  Num.xcompare a c = Some Gt.
Proof.
  destruct a as [|[]|m1 e1], b as [|[]|m2 e2], c as [|[]|m3 e3];
    simpl; try congruence.
  intros [= H1] [= H2]. f_equal.
  set (E := Z.min e1 (Z.min e2 e3)).
  rewrite (fin_compare_scaled m1 e1 m2 e2 E) in H1 by (unfold E; lia).
  rewrite (fin_compare_scaled m3 e3 m2 e2 E) in H2 by (unfold E; lia).
  rewrite (fin_compare_scaled m1 e1 m3 e3 E) by (unfold E; lia).
  apply Z.compare_gt_iff. apply Z.compare_gt_iff in H1.
  apply -> Z.compare_lt_iff in H2. lia.
Qed.

(** [d > t2] and [t1 < t2] give [d > t1]. *)
Lemma gtb_ltb_trans d t1 t2 :
  Num.gtb d t2 = true -> Num.ltb t1 t2 = true -> Num.gtb d t1 = true.
Proof.
  unfold Num.gtb, Num.ltb, Num.compare. intros H1 H2.
  destruct (Num.xcompare (Num.xval_of d) (Num.xval_of t2)) as [[]|] eqn:E1;
    try discriminate.
  destruct (Num.xcompare (Num.xval_of t1) (Num.xval_of t2)) as [[]|] eqn:E2;
    try discriminate.
  now rewrite (xcompare_trans_gt _ _ _ E1 E2).
Qed.
End Compare.

(** ** Monotonicity in the tolerance *)

Section Monotone.
Context {L : Libm}.
Local Open Scope nat_scope.

Lemma douglas_peucker_mono depth : forall puntos t1 t2 r1,
  Num.ltb t1 t2 = true ->
  _douglas_peucker depth puntos t1 = Ok r1 ->
  exists r2, _douglas_peucker depth puntos t2 = Ok r2 /\ length r2 <= length r1.
Proof.
  induction depth as [|depth IH]; intros puntos t1 t2 r1 Ht H; [discriminate|].
  pose proof (douglas_peucker_simplified _ _ _ _ H) as (_ & _ & _ & Hr1).
  rewrite douglas_peucker_S in H |- *.
  destruct (length puntos <=? 2) eqn:Hlen.
  - injection H as <-. eauto.
  - apply Nat.leb_gt in Hlen.
    inv_bind H as [dmax imax] Hscan. rewrite Hscan. cbn [bind fst snd] in *.
    destruct (Num.gtb dmax t2) eqn:G2.
    + rewrite (gtb_ltb_trans _ _ _ G2 Ht) in H.
      inv_bind H as izq1 Hizq. inv_bind H as der1 Hder. injection H as <-.
      destruct (IH _ _ _ _ Ht Hizq) as (izq2 & -> & Li).
      destruct (IH _ _ _ _ Ht Hder) as (der2 & -> & Ld).
      cbn [bind]. eexists; split; [reflexivity|].
      rewrite !length_app, !length_removelast. lia.
    + destruct (elem_defined puntos 0) as (p0 & -> & _); [lia|].
      unfold ultimo.
      destruct (elem_defined puntos (length puntos - 1)) as (pl & -> & _); [lia|].
      cbn [bind]. eexists; split; [reflexivity|]. simpl. lia.
Qed.
End Monotone.

(** ** Line simplifier: stated properties *)

Ltac enumerate_points :=
  repeat match goal with
         | H : _ \/ _ |- _ => destruct H
         | H : False |- _ => contradiction
         end.

Section SimplifierClaims.
Context {L : Libm}.
Local Open Scope nat_scope.

Lemma douglas_peucker_total puntos epsilon :
  Num.gtb (PyInt 0) epsilon = false -> distance_defined puntos ->
  exists r, _douglas_peucker (S (length puntos)) puntos epsilon = Ok r.
Proof. intros He Hd. apply douglas_peucker_returns; auto. Qed.

Lemma elem_ends r puntos :
  puntos <> [] -> simplified r puntos ->
  exists p0 pl,
    elem puntos 0 = Ok p0 /\ elem r 0 = Ok p0 /\
    ultimo puntos = Ok pl /\ ultimo r = Ok pl.
Proof.
  intros Hne (_ & Hh & Hl & _).
  destruct puntos as [|a l]; [congruence|].
  destruct r as [|b r]; [discriminate|].
  injection Hh as ->.
  exists a, (last (a :: l) a). unfold ultimo, elem.
  rewrite !(nth_error_last _ a) by discriminate.
  rewrite Hl. auto.
Qed.

(** C3. Order preservation: whatever [_douglas_peucker] returns is a
    subsequence of its input, the kept points in their original order; and
    it returns one when the tolerance is not negative, the distance
    evaluator returns and the recursion limit exceeds the number of
    points. *)
Theorem douglas_peucker_subsequence puntos epsilon :
  (forall depth r,
      _douglas_peucker depth puntos epsilon = Ok r -> subsequence r puntos) /\
  (Num.gtb (PyInt 0) epsilon = false -> distance_defined puntos ->
   exists r, _douglas_peucker (S (length puntos)) puntos epsilon = Ok r /\
             subsequence r puntos).
Proof.
  split.
  - intros depth r H. now apply douglas_peucker_simplified in H as (? & _).
  - intros He Hd. destruct (douglas_peucker_total _ _ He Hd) as (r & Hr).
    exists r. split; [assumption|].
    now apply douglas_peucker_simplified in Hr as (? & _).
Qed.

(** C4. Endpoint retention: for a non-empty input, element [0] and element
    [-1] of every returned list are element [0] and element [-1] of the
    input; a list is returned under the conditions of C3. *)
Theorem douglas_peucker_endpoints puntos epsilon :
  puntos <> [] ->
  (forall depth r,
      _douglas_peucker depth puntos epsilon = Ok r ->
      exists p0 pl,
        elem puntos 0 = Ok p0 /\ elem r 0 = Ok p0 /\
        ultimo puntos = Ok pl /\ ultimo r = Ok pl) /\
  (Num.gtb (PyInt 0) epsilon = false -> distance_defined puntos ->
   exists r p0 pl,
     _douglas_peucker (S (length puntos)) puntos epsilon = Ok r /\
     elem puntos 0 = Ok p0 /\ elem r 0 = Ok p0 /\
     ultimo puntos = Ok pl /\ ultimo r = Ok pl).
Proof.
  intros Hne. split.
  - intros depth r H. apply elem_ends; [assumption|].
    eapply douglas_peucker_simplified; eauto.
  - intros He Hd. destruct (douglas_peucker_total _ _ He Hd) as (r & Hr).
    destruct (elem_ends r puntos Hne) as (p0 & pl & H).
    { eapply douglas_peucker_simplified; eauto. }
    exists r, p0, pl. auto.
Qed.

(** C5. Monotonicity: for tolerances [t1 < t2], when the run at [t1]
    returns, the run at [t2] returns a list that is not longer; both return
    under the conditions of C3 on [t1]. *)
Theorem douglas_peucker_monotone puntos t1 t2 :
  Num.ltb t1 t2 = true ->
  (forall depth r1,
      _douglas_peucker depth puntos t1 = Ok r1 ->
      exists r2,
        _douglas_peucker depth puntos t2 = Ok r2 /\ length r2 <= length r1) /\
  (Num.gtb (PyInt 0) t1 = false -> distance_defined puntos ->
   exists r1 r2,
     _douglas_peucker (S (length puntos)) puntos t1 = Ok r1 /\
     _douglas_peucker (S (length puntos)) puntos t2 = Ok r2 /\
     length r2 <= length r1).
Proof.
  intros Ht. split.
  - intros depth r1. now apply douglas_peucker_mono.
  - intros He Hd. destruct (douglas_peucker_total _ _ He Hd) as (r1 & Hr1).
    destruct (douglas_peucker_mono _ _ _ _ _ Ht Hr1) as (r2 & Hr2 & Hl).
    exists r1, r2. auto.
Qed.

(** C9, amended. Of two or more points, every list [_douglas_peucker]
    returns has two or more; and it does return when the tolerance is not
    negative, the distance evaluator returns, and the recursion limit is
    the number of points. *)
Theorem douglas_peucker_at_least_two puntos epsilon :
  2 <= length puntos ->
  (forall depth r,
      _douglas_peucker depth puntos epsilon = Ok r -> 2 <= length r) /\
  (Num.gtb (PyInt 0) epsilon = false -> distance_defined puntos ->
   exists r,
     _douglas_peucker (length puntos) puntos epsilon = Ok r /\ 2 <= length r).
Proof.
  intros Hl. split.
  - intros depth r H.
    apply douglas_peucker_simplified in H as (_ & _ & _ & H). auto.
  - intros He Hd.
    destruct (length puntos) as [|n] eqn:En; [lia|].
    destruct (douglas_peucker_returns n puntos epsilon He Hd) as (r & Hr); [lia|].
    exists r. split; auto.
    apply douglas_peucker_simplified in Hr as (_ & _ & _ & H). lia.
Qed.

(** Three coincident points with int coordinates at tolerance [-1]: the
    recursion never ends, whatever the C library (no float is squared). *)
Lemma douglas_peucker_repetido depth :
  _douglas_peucker depth repetido (PyInt (-1)) = Raise RecursionError.
Proof.
  induction depth as [|depth IH]; [reflexivity|].
  rewrite douglas_peucker_S.
  change (length repetido <=? 2) with false.
  replace (scan repetido) with (Ok (PyInt 0, 0)) by (vm_compute; reflexivity).
  cbn [bind fst snd].
  change (Num.gtb (PyInt 0) (PyInt (-1))) with true. cbv iota.
  change (skipn 0 repetido) with repetido. rewrite IH.
  destruct (_douglas_peucker depth (firstn 1 repetido) (PyInt (-1))) eqn:E.
  - reflexivity.
  - destruct depth; [simpl in E |- *; congruence|].
    rewrite douglas_peucker_short in E by (simpl; lia). discriminate.
Qed.

End SimplifierClaims.

Section SimplifierClaimsExamples.
Local Open Scope nat_scope.

Lemma distance_defined_casi_recto : distance_defined casi_recto.
Proof.
  intros p a b Hp Ha Hb. unfold casi_recto in Hp, Ha, Hb.
  simpl in Hp, Ha, Hb. enumerate_points; subst;
    eexists; vm_compute; reflexivity.
Qed.

Lemma douglas_peucker_subsequence_witness :
  exists r, _douglas_peucker 7 casi_recto (decimal 1 2) = Ok r /\
            subsequence r casi_recto.
Proof.
  apply (proj2 (douglas_peucker_subsequence casi_recto (decimal 1 2))).
  - vm_compute. reflexivity.
  - apply distance_defined_casi_recto.
Defined.

Lemma douglas_peucker_endpoints_witness :
  exists r p0 pl,
    _douglas_peucker 7 casi_recto (decimal 1 2) = Ok r /\
    elem casi_recto 0 = Ok p0 /\ elem r 0 = Ok p0 /\
    ultimo casi_recto = Ok pl /\ ultimo r = Ok pl.
Proof.
  apply (proj2 (douglas_peucker_endpoints casi_recto (decimal 1 2)
                  ltac:(discriminate))).
  - vm_compute. reflexivity.
  - apply distance_defined_casi_recto.
Defined.

Lemma douglas_peucker_monotone_witness :
  exists r1 r2,
    _douglas_peucker 7 casi_recto (decimal 1 2) = Ok r1 /\
    _douglas_peucker 7 casi_recto (PyInt 20) = Ok r2 /\
    length r2 <= length r1.
Proof.
  apply (proj2 (douglas_peucker_monotone casi_recto (decimal 1 2) (PyInt 20)
                  ltac:(vm_compute; reflexivity))).
  - vm_compute. reflexivity.
  - apply distance_defined_casi_recto.
Defined.

(** C9, as stated, fails: with a negative tolerance and three coincident
    points no distance exceeds the initial 0, [indice_max] stays 0, and the
    right-hand recursive call is made on the whole input again; no
    recursion limit is large enough. *)
Lemma douglas_peucker_negative_tolerance_diverges :
  2 <= length repetido /\
  forall depth, _douglas_peucker depth repetido (PyInt (-1)) = Raise RecursionError.
Proof.
  split; [simpl; lia|]. intros depth. apply douglas_peucker_repetido.
Qed.

Lemma douglas_peucker_at_least_two_witness :
  exists r,
    _douglas_peucker (length casi_recto) casi_recto (PyInt 0) = Ok r /\
    2 <= length r.
Proof.
  apply (proj2 (douglas_peucker_at_least_two casi_recto (PyInt 0)
                  ltac:(simpl; lia))).
  - vm_compute. reflexivity.
  - apply distance_defined_casi_recto.
Defined.
End SimplifierClaimsExamples.

(** ** Ring normalizer: stated properties *)

Section RingClaims.
Context {L : Libm}.
Local Open Scope nat_scope.

Lemma simplificar_anillo_cases depth anillo epsilon r :
  _simplificar_anillo depth anillo epsilon = Ok r ->
  exists s, _douglas_peucker depth anillo epsilon = Ok s /\
            ((length s < 4 /\ r = anillo) \/ (4 <= length s /\ r = s)).
Proof.
  unfold _simplificar_anillo. intros H. inv_bind H as s Hs. exists s.
  split; [assumption|].
  destruct (length s <? 4) eqn:E.
  - apply Nat.ltb_lt in E. left. split; [assumption|].
    destruct (4 <=? length anillo); now injection H as <-.
  - apply Nat.ltb_ge in E. right. now injection H as <-.
Qed.

(** C1, amended. A ring of four or more points keeps at least four points;
    a ring of fewer than four is returned as it is; the normalizer returns
    whenever the simplifier does. *)
Theorem simplificar_anillo_floor anillo epsilon :
  (forall depth r,
      _simplificar_anillo depth anillo epsilon = Ok r ->
      (4 <= length anillo -> 4 <= length r) /\
      (length anillo < 4 -> r = anillo)) /\
  (Num.gtb (PyInt 0) epsilon = false -> distance_defined anillo ->
   exists r, _simplificar_anillo (S (length anillo)) anillo epsilon = Ok r /\
             (4 <= length anillo -> 4 <= length r)).
Proof.
  assert (G : forall depth r,
             _simplificar_anillo depth anillo epsilon = Ok r ->
             (4 <= length anillo -> 4 <= length r) /\
             (length anillo < 4 -> r = anillo)).
  { intros depth r H.
    apply simplificar_anillo_cases in H as (s & Hs & [[Hl ->]|[Hl ->]]).
    - split; auto.
    - split; [auto|]. intros Ha.
      apply douglas_peucker_simplified in Hs as (Hs & _).
      apply subsequence_length in Hs. lia. }
  split; [exact G|].
  intros He Hd. destruct (douglas_peucker_total _ _ He Hd) as (s & Hs).
  assert (E : exists r,
             _simplificar_anillo (S (length anillo)) anillo epsilon = Ok r).
  { unfold _simplificar_anillo. rewrite Hs. cbn [bind].
    destruct (length s <? 4); [destruct (4 <=? length anillo)|]; eauto. }
  destruct E as (r & Hr). exists r. split; [assumption|].
  now apply (G _ _ Hr).
Qed.

(** C2. When the simplification of a ring has fewer than four points it is
    discarded and the ring is returned unmodified; so it is for the
    triangle ring, at any tolerance that leaves three points of it. *)
Theorem simplificar_anillo_fallback depth anillo epsilon s :
  _douglas_peucker depth anillo epsilon = Ok s ->
  length s < 4 ->
  _simplificar_anillo depth anillo epsilon = Ok anillo.
Proof.
  intros Hs Hl. unfold _simplificar_anillo. rewrite Hs. cbn [bind].
  apply Nat.ltb_lt in Hl. rewrite Hl.
  now destruct (4 <=? length anillo).
Qed.

(** A ring of three points with int coordinates comes back as it went in,
    whatever the C library (no float is squared). *)
Lemma simplificar_anillo_corto :
  _simplificar_anillo 3 anillo_corto (decimal 8 3) = Ok anillo_corto.
Proof. vm_compute. reflexivity. Qed.

End RingClaims.

Section RingClaimsExamples.
Local Open Scope nat_scope.

(** C1, as stated, fails: a ring that comes in with three points goes out
    with three points. *)
Lemma simplificar_anillo_short_ring :
  exists r, _simplificar_anillo 3 anillo_corto (decimal 8 3) = Ok r /\
            length r < 4.
Proof. exists anillo_corto. split; [apply simplificar_anillo_corto | simpl; lia]. Qed.

Lemma simplificar_anillo_floor_witness :
  exists r, _simplificar_anillo 7 casi_recto (decimal 1 2) = Ok r /\
            (4 <= length casi_recto -> 4 <= length r).
Proof.
  apply (proj2 (simplificar_anillo_floor casi_recto (decimal 1 2))).
  - vm_compute. reflexivity.
  - apply distance_defined_casi_recto.
Defined.

Lemma simplificar_anillo_fallback_witness :
  _simplificar_anillo 4 triangulo (PyInt 9) = Ok triangulo.
Proof.
  apply (simplificar_anillo_fallback 4 triangulo (PyInt 9)
           [punto_int 0 0; punto_int 5 10; punto_int 0 0]).
  - vm_compute. reflexivity.
  - simpl. lia.
Defined.
End RingClaimsExamples.

(** ** Geometry transformer: stated properties *)

(** C6, as stated, fails: a geometry tagged ["Point"] comes back as it went
    in, and no error is raised. *)
Lemma simplificar_geometria_unknown_tag_returns :
  g_type geometria_punto <> Some "Polygon"%string /\
  g_type geometria_punto <> Some "MultiPolygon"%string /\
  _simplificar_geometria 1 geometria_punto (decimal 8 3) = Ok geometria_punto.
Proof. repeat split; discriminate. Qed.

Section GeometryClaims.
Context {L : Libm}.

(** C6, amended. A geometry that has both members and whose tag is neither
    ["Polygon"] nor ["MultiPolygon"] is returned unchanged, without error. *)
Theorem simplificar_geometria_unknown_tag depth geom epsilon tipo coords :
  g_type geom = Some tipo -> g_coordinates geom = Some coords ->
  tipo <> "Polygon"%string -> tipo <> "MultiPolygon"%string ->
  _simplificar_geometria depth geom epsilon = Ok geom.
Proof.
  intros Ht Hc H1 H2. unfold _simplificar_geometria.
  rewrite Ht, Hc. cbn [lookup bind].
  apply String.eqb_neq in H1, H2. now rewrite H1, H2.
Qed.
End GeometryClaims.

Lemma simplificar_geometria_unknown_tag_witness :
  _simplificar_geometria 1 geometria_punto (decimal 8 3) = Ok geometria_punto.
Proof.
  apply (simplificar_geometria_unknown_tag 1 geometria_punto (decimal 8 3)
           "Point"%string (punto_int 1 2)); try reflexivity; discriminate.
Defined.

(** ** Distance evaluator: stated properties *)

Section DistanceClaims.
Context {L : Libm}.
















(** The guard tests coincidence only: endpoints that differ by less than
    the square root of the smallest float reach the division with a zero
    denominator, whatever the C library. *)
Example distancia_underflow :
  _punto_distancia_a_linea
    (punto (PyFloat (float_of_ratio false 5 (10 ^ 200))) (PyInt 0))
    (punto_int 0 0)
    (punto (PyFloat (float_of_ratio false 1 (10 ^ 200))) (PyInt 0))
  = Raise ZeroDivisionError.
Proof. vm_compute. reflexivity. Qed.


End DistanceClaims.

Section DistanceClaimsExamples.

End DistanceClaimsExamples.

(** ** Coordinate quantizer: stated properties *)

(** Induction over nested arrays. *)
Lemma value_induction (P : value -> Prop) :
  (forall n, P (VNum n)) ->
  (forall l, Forall P l -> P (VList l)) ->
  forall v, P v.
Proof.
  intros P_num P_list. fix IH 1. intros [n|l]; [apply P_num|].
  apply P_list. induction l as [|x l IHl]; constructor; [apply IH | exact IHl].
Qed.

Section QuantizerClaims.

Lemma mapM_Forall2 {A B : Type} (f : A -> result B) l rs :
  mapM f l = Ok rs <-> Forall2 (fun a b => f a = Ok b) l rs.
Proof.
  revert rs; induction l as [|a l IH]; intros rs; simpl.
  - split; [intros [= <-]; constructor | now inversion 1].
  - split.
    + intros H. inv_bind H as b Hb. inv_bind H as bs Hbs. injection H as <-.
      constructor; [assumption | now apply IH].
    + inversion 1 as [|? b ? bs Hb Hbs]; subst.
      rewrite Hb. cbn [bind]. apply IH in Hbs. now rewrite Hbs.
Qed.

Lemma redondear_leaf x rest p :
  _redondear_coordenadas (VList (VNum x :: rest)) p =
  (r0 <- Round.round x p ;;
   c1 <- item (VList (VNum x :: rest)) 1 ;;
   y <- as_num c1 ;;
   r1 <- Round.round y p ;;
   Ok (VList [VNum r0; VNum r1])).
Proof. reflexivity. Qed.

Lemma each_mapM p l :
  (fix each (l : list value) : result (list value) :=
     match l with
     | [] => Ok []
     | c :: l' =>
         r <- _redondear_coordenadas c p ;;
         rs <- each l' ;;
         Ok (r :: rs)
     end) l
  = mapM (fun v => _redondear_coordenadas v p) l.
Proof. induction l as [|c l IH]; [reflexivity|]. now rewrite IH. Qed.

Lemma redondear_node c l p :
  _redondear_coordenadas (VList (VList c :: l)) p =
  (rs <- mapM (fun v => _redondear_coordenadas v p) (VList c :: l) ;;
   Ok (VList rs)).
Proof. rewrite <- each_mapM. reflexivity. Qed.

Lemma redondear_quantized p coords : forall r,
  _redondear_coordenadas coords p = Ok r -> quantized p coords r.
Proof.
  induction coords as [n|l IH] using value_induction; intros r H;
    [discriminate|].
  destruct l as [|[x|c] l]; [discriminate| |].
  - rewrite redondear_leaf in H.
    inv_bind H as rx Hx. inv_bind H as c1 Hc1. inv_bind H as y Hy.
    inv_bind H as ry Hry. injection H as <-.
    destruct l as [|c1' rest]; [discriminate|].
    cbn [item nth_error] in Hc1. injection Hc1 as <-.
    destruct c1' as [y'|]; [|discriminate]. injection Hy as <-.
    now constructor.
  - rewrite redondear_node in H. inv_bind H as rs Hrs. injection H as <-.
    constructor. apply mapM_Forall2 in Hrs.
    revert IH. induction Hrs as [|a b l' rs' Hab Hrs IHrs]; intros IH;
      constructor.
    + inversion IH; subst. auto.
    + apply IHrs. now inversion IH.
Qed.

Lemma quantized_redondear p coords : forall r,
  quantized p coords r -> _redondear_coordenadas coords p = Ok r.
Proof.
  induction coords as [n|l IH] using value_induction; intros r H;
    inversion H as [x y rest rx ry Hx Hy|c l' rs Hrs]; subst.
  - rewrite redondear_leaf, Hx. cbn [bind item nth_error as_num].
    now rewrite Hy.
  - rewrite redondear_node.
    assert (E : mapM (fun v => _redondear_coordenadas v p) (VList c :: l')
                = Ok rs).
    { apply mapM_Forall2.
      clear H. revert IH Hrs. generalize (VList c :: l').
      intros l0 IH Hrs.
      induction Hrs as [|a b l1 rs0 Hab Hrs IHrs]; constructor.
      - inversion IH; subst. auto.
      - apply IHrs. now inversion IH. }
    now rewrite E.
Qed.

(** C10. The quantizer returns exactly the structure described by
    [quantized]: the nesting above the leaves is kept element for element,
    and every leaf becomes the two-element list of its first two
    components rounded, later components being dropped. *)
Theorem redondear_coordenadas_shape coords p r :
  _redondear_coordenadas coords p = Ok r <-> quantized p coords r.
Proof. split; [apply redondear_quantized | apply quantized_redondear]. Qed.
End QuantizerClaims.

Lemma redondear_coordenadas_shape_witness :
  quantized 3 con_altitud
    (VList [VList [punto (decimal 1235 3) (decimal 25 1);
                   punto (PyInt 7) (decimal (-74082) 3)]]).
Proof.
  apply (redondear_coordenadas_shape con_altitud 3).
  vm_compute. reflexivity.
Defined.

(** ** Idempotence of the quantizer *)

(** ** Rounding a quotient to the nearest integer *)

Section DivNear.
Variables n d : Z.
Hypothesis d_pos : 0 < d.

Lemma div_near_nearest_even : nearest_even n d (div_near n d).
Proof.
  unfold nearest_even, div_near.
  pose proof (Z.div_mod n d ltac:(lia)) as E.
  pose proof (Z.mod_pos_bound n d d_pos) as B.
  set (q := n / d) in *. set (r := n mod d) in *.
  destruct (2 * r ?= d) eqn:C.
  - apply Z.compare_eq in C. right.
    destruct (Z.even q) eqn:Ev.
    + split; [|assumption]. replace (n - q * d) with r by lia. lia.
    + split.
      * replace (n - (q + 1) * d) with (r - d) by lia. lia.
      * rewrite Z.even_add, Ev. reflexivity.
  - apply -> Z.compare_lt_iff in C. left.
    replace (n - q * d) with r by lia. lia.
  - apply Z.compare_gt_iff in C. left.
    replace (n - (q + 1) * d) with (r - d) by lia. lia.
Qed.

Lemma nearest_even_unique q1 q2 :
  nearest_even n d q1 -> nearest_even n d q2 -> q1 = q2.
Proof.
  unfold nearest_even. intros H1 H2.
  assert (D : -1 <= q1 - q2 <= 1) by nia.
  assert (C : q1 = q2 \/ q1 = q2 + 1 \/ q2 = q1 + 1) by lia.
  destruct C as [C|[C|C]]; [assumption| |]; exfalso; subst.
  - destruct H1 as [H1|[H1 E1]], H2 as [H2|[H2 E2]]; try nia.
    rewrite Z.even_add, E2 in E1. discriminate.
  - destruct H1 as [H1|[H1 E1]], H2 as [H2|[H2 E2]]; try nia.
    rewrite Z.even_add, E1 in E2. discriminate.
Qed.

Lemma div_near_unique q : nearest_even n d q -> div_near n d = q.
Proof. intros H. apply nearest_even_unique; auto using div_near_nearest_even. Qed.

Lemma div_near_error : 2 * Z.abs (n - div_near n d * d) <= d.
Proof. destruct div_near_nearest_even as [H|[H _]]; lia. Qed.

Lemma div_near_closest k : Z.abs (n - div_near n d * d) <= Z.abs (n - k * d).
Proof.
  pose proof div_near_error as H.
  destruct (Z.eq_dec k (div_near n d)) as [->|Hk]; [lia|]. nia.
Qed.
End DivNear.

Lemma div_near_exact k d : 0 < d -> div_near (k * d) d = k.
Proof.
  intros Hd. apply div_near_unique; [assumption|]. left.
  replace (k * d - k * d) with 0 by lia. simpl. lia.
Qed.

Lemma div_near_mono n1 n2 d : 0 < d -> n1 <= n2 -> div_near n1 d <= div_near n2 d.
Proof.
  intros Hd Hn.
  destruct (Z.eq_dec n1 n2) as [->|Hne]; [lia|].
  pose proof (div_near_error n1 d Hd). pose proof (div_near_error n2 d Hd).
  nia.
Qed.

Lemma div_near_scale n d c : 0 < d -> 0 < c -> div_near (n * c) (d * c) = div_near n d.
Proof.
  intros Hd Hc. apply div_near_unique; [nia|].
  destruct (div_near_nearest_even n d Hd) as [H|[H E]]; [left | right; split; auto].
  - replace (n * c - div_near n d * (d * c)) with ((n - div_near n d * d) * c) by ring.
    rewrite Z.abs_mul, (Z.abs_eq c) by lia. nia.
  - replace (n * c - div_near n d * (d * c)) with ((n - div_near n d * d) * c) by ring.
    rewrite Z.abs_mul, (Z.abs_eq c) by lia. nia.
Qed.

Lemma div_near_nonneg n d : 0 < d -> 0 <= n -> 0 <= div_near n d.
Proof.
  intros Hd Hn. rewrite <- (div_near_exact 0 d Hd). now apply div_near_mono.
Qed.

(** ** The exponent chosen for a quotient *)

Lemma pow2_pos k : 0 <= k -> 0 < 2 ^ k.
Proof. intros. apply Z.pow_pos_nonneg; lia. Qed.

Lemma pow2_double_le a b : 0 <= a -> a < b -> 2 * 2 ^ a <= 2 ^ b.
Proof.
  intros Ha Hab. rewrite <- Z.pow_succ_r by assumption.
  apply Z.pow_le_mono_r; lia.
Qed.

Lemma shift_spec u d :
  0 < d -> 0 <= u ->
  0 <= shift u d /\
  u < 2 ^ 53 * (d * 2 ^ shift u d) /\
  (0 < shift u d -> 2 ^ 52 * (d * 2 ^ shift u d) <= u).
Proof.
  intros Hd Hu. unfold shift.
  pose proof (Z.div_mod u d ltac:(lia)) as E.
  pose proof (Z.mod_pos_bound u d Hd) as B.
  assert (Hv : 0 <= u / d) by (apply Z.div_pos; lia).
  set (v := u / d) in *.
  destruct (Z.eq_dec v 0) as [V0|V0].
  - rewrite V0. simpl Z.log2. rewrite Z.max_r by lia.
    rewrite Z.pow_0_r. repeat split; try lia.
  - pose proof (Z.log2_spec v ltac:(lia)) as (L1 & L2).
    pose proof (Z.log2_nonneg v) as L0.
    set (L := Z.log2 v) in *.
    destruct (Z_le_gt_dec L 52) as [C|C].
    + rewrite Z.max_r by lia. rewrite Z.pow_0_r.
      repeat split; try lia.
      assert (2 ^ Z.succ L <= 2 ^ 53) by (apply Z.pow_le_mono_r; lia).
      nia.
    + rewrite Z.max_l by lia.
      assert (E53 : 2 ^ 53 * 2 ^ (L - 52) = 2 ^ Z.succ L).
      { rewrite <- Z.pow_add_r by lia. f_equal. lia. }
      assert (E52 : 2 ^ 52 * 2 ^ (L - 52) = 2 ^ L).
      { rewrite <- Z.pow_add_r by lia. f_equal. lia. }
      repeat split; try lia; nia.
Qed.

Lemma shift_unique u d sh :
  0 < d -> 0 <= u -> 0 <= sh ->
  u < 2 ^ 53 * (d * 2 ^ sh) ->
  (0 < sh -> 2 ^ 52 * (d * 2 ^ sh) <= u) ->
  shift u d = sh.
Proof.
  intros Hd Hu Hsh Hlt Hge.
  destruct (shift_spec u d Hd Hu) as (S0 & Slt & Sge).
  set (s := shift u d) in *.
  destruct (Z.lt_trichotomy s sh) as [C|[C|C]]; [exfalso|assumption|exfalso].
  - pose proof (pow2_double_le s sh S0 C). pose proof (pow2_pos s S0).
    specialize (Hge ltac:(lia)). nia.
  - pose proof (pow2_double_le sh s Hsh C). pose proof (pow2_pos sh Hsh).
    specialize (Sge ltac:(lia)). nia.
Qed.

(** ** Rounding to the grid of floats

    Values are counted in units of [2^emin / P]: a decimal [n / P] is
    [u = n * W] and a float of mantissa [m] and exponent [emin + sh] is
    [m * (P * 2^sh)]. *)

Section Grid.
Variable P : Z.
Hypothesis P_pos : 0 < P.

Lemma step_pos sh : 0 <= sh -> 0 < step P sh.
Proof. intros. unfold step. pose proof (pow2_pos sh). nia. Qed.

Lemma step_succ sh : 0 <= sh -> step P (sh + 1) = 2 * step P sh.
Proof. intros. unfold step. rewrite Z.pow_add_r by lia. ring. Qed.

Lemma step_double_le a b : 0 <= a -> a < b -> 2 * step P a <= step P b.
Proof. intros. unfold step. pose proof (pow2_double_le a b). nia. Qed.

Lemma shift_step u : 0 <= u ->
  0 <= shift u P /\ u < 2 ^ 53 * step P (shift u P) /\
  (0 < shift u P -> 2 ^ 52 * step P (shift u P) <= u).
Proof. intros. now apply shift_spec. Qed.

Lemma shift_step_unique u sh : 0 <= u -> 0 <= sh ->
  u < 2 ^ 53 * step P sh -> (0 < sh -> 2 ^ 52 * step P sh <= u) ->
  shift u P = sh.
Proof. intros. now apply shift_unique. Qed.

Lemma mant_bounds u : 0 <= u ->
  0 <= mant P u <= 2 ^ 53 /\ (0 < shift u P -> 2 ^ 52 <= mant P u).
Proof.
  intros Hu. destruct (shift_step u Hu) as (S0 & Slt & Sge).
  pose proof (step_pos _ S0) as Gp. unfold mant.
  repeat split.
  - now apply div_near_nonneg.
  - rewrite <- (div_near_exact (2 ^ 53) _ Gp). apply div_near_mono; lia.
  - intros Hs. rewrite <- (div_near_exact (2 ^ 52) _ Gp).
    apply div_near_mono; auto.
Qed.

(** Anything between a value and its rounding rounds the same way. *)
Lemma round_between u v : 0 <= u -> 0 <= v ->
  (mant P u * step P (shift u P) <= v <= u \/ u <= v <= mant P u * step P (shift u P)) ->
  v < 2 ^ 53 * step P (shift u P) ->
  shift v P = shift u P /\ mant P v = mant P u.
Proof.
  intros Hu Hv Hbetween Hlt.
  destruct (shift_step u Hu) as (S0 & Slt & Sge).
  destruct (mant_bounds u Hu) as (Mb & Mge).
  pose proof (step_pos _ S0) as Gp.
  assert (Es : shift v P = shift u P).
  { apply shift_step_unique; auto. intros Hs.
    specialize (Sge Hs). specialize (Mge Hs). nia. }
  split; [assumption|]. unfold mant at 1. rewrite Es.
  fold (mant P u) in *.
  pose proof (div_near_exact (mant P u) _ Gp) as Ex.
  destruct Hbetween as [[H1 H2]|[H1 H2]].
  - apply Z.le_antisymm.
    + apply (div_near_mono v u _ Gp H2).
    + rewrite <- Ex at 1. now apply div_near_mono.
  - apply Z.le_antisymm.
    + rewrite <- Ex. now apply div_near_mono.
    + apply (div_near_mono u v _ Gp H1).
Qed.

Lemma renorm_plain q sh : q <> 2 ^ 53 -> renorm q sh = (q, sh).
Proof.
  intros H. unfold renorm. change (2 ^ prec) with (2 ^ 53).
  destruct (Z.eqb_spec q (2 ^ 53)); [contradiction | reflexivity].
Qed.

Lemma renorm_carry sh : renorm (2 ^ 53) sh = (2 ^ 52, sh + 1).
Proof. reflexivity. Qed.

(** A value as far above the rounding of [u] as [u] is below it rounds to
    the same float: the floats above are not closer together than those
    below. *)
Lemma round_reflect u v : 0 <= u ->
  u < mant P u * step P (shift u P) ->
  u <= v <= 2 * (mant P u * step P (shift u P)) - u ->
  rnd P v = rnd P u.
Proof.
  intros Hu Hup Hv.
  destruct (shift_step u Hu) as (S0 & Slt & Sge).
  destruct (mant_bounds u Hu) as (Mb & Mge).
  pose proof (step_pos _ S0) as Gp.
  pose proof (div_near_error u _ Gp) as Err.
  pose proof (div_near_nearest_even u _ Gp) as Hne.
  fold (mant P u) in Err, Hne.
  set (sh := shift u P) in *. set (q := mant P u) in *. set (G := step P sh) in *.
  unfold rnd. fold sh q.
  destruct (Z_lt_ge_dec v (2 ^ 53 * G)) as [C|C].
  - assert (Es : shift v P = sh).
    { apply shift_step_unique; auto; lia. }
    assert (Em : mant P v = q).
    { unfold mant. rewrite Es. fold G. apply div_near_unique; [assumption|].
      unfold nearest_even in *.
      destruct (Z_lt_ge_dec (2 * Z.abs (v - q * G)) G) as [D|D]; [now left|].
      right. destruct Hne as [Hne|[Hne Ev]]; [lia|]. split; [lia | assumption]. }
    now rewrite Es, Em.
  - assert (Eq : q = 2 ^ 53) by nia.
    assert (Es : shift v P = sh + 1).
    { apply shift_step_unique; try lia.
      - rewrite step_succ by assumption. fold G. nia.
      - intros _. rewrite step_succ by assumption. fold G. nia. }
    assert (Em : mant P v = 2 ^ 52).
    { unfold mant. rewrite Es, step_succ by assumption. fold G.
      apply div_near_unique; [lia|]. left. nia. }
    rewrite Es, Em, Eq, renorm_carry. apply renorm_plain. lia.
Qed.

(** No float is closer to [u] than its rounding. *)
Lemma round_closest u m sh : 0 <= u -> canonical m sh ->
  Z.abs (u - mant P u * step P (shift u P)) <= Z.abs (u - m * step P sh).
Proof.
  intros Hu Hc.
  destruct (shift_step u Hu) as (S0 & Slt & Sge).
  pose proof (step_pos _ S0) as Gp.
  destruct (Z_le_gt_dec (shift u P) sh) as [C|C].
  - replace (m * step P sh) with ((m * 2 ^ (sh - shift u P)) * step P (shift u P)).
    + apply div_near_closest. assumption.
    + unfold step. rewrite <- !Z.mul_assoc. f_equal.
      rewrite (Z.mul_comm _ (P * _)), <- Z.mul_assoc, <- Z.pow_add_r by lia.
      do 2 f_equal. lia.
  - assert (Hsh : 0 <= sh) by (destruct Hc as [[_ ?]|[_ ->]]; lia).
    specialize (Sge ltac:(lia)).
    pose proof (step_double_le sh (shift u P) Hsh ltac:(lia)) as Hd.
    pose proof (step_pos _ Hsh) as Gs.
    assert (Hm : m < 2 ^ 53) by (destruct Hc as [[? _]|[? _]]; lia).
    assert (HA : m * step P sh < 2 ^ 52 * step P (shift u P)) by nia.
    pose proof (div_near_closest u _ Gp (2 ^ 52)) as Hcl.
    fold (mant P u) in Hcl. lia.
Qed.

(** Decimals with the precision at hand are the multiples of [w]. *)
Variable w : Z.
Hypothesis w_pos : 0 < w.

(** Rounding a float to a decimal and the decimal to a float gives a float
    that the same two steps leave in place. *)
Lemma round_trip m sh : canonical m sh ->
  let n := div_near (m * step P sh) w in
  let y := mant P (n * w) * step P (shift (n * w) P) in
  rnd P (div_near y w * w) = rnd P (n * w).
Proof.
  intros Hc n y.
  assert (Hsh : 0 <= sh) by (destruct Hc as [[_ ?]|[_ ->]]; lia).
  assert (Hm : 0 < m) by (destruct Hc as [[? _]|[? _]]; lia).
  pose proof (step_pos _ Hsh) as Gs.
  set (x := m * step P sh) in *.
  assert (Hx : 0 <= x) by (unfold x; nia).
  assert (Hn : 0 <= n) by (apply div_near_nonneg; assumption).
  set (u := n * w) in *.
  assert (Hu : 0 <= u) by (unfold u; nia).
  destruct (shift_step u Hu) as (S0 & Slt & Sge).
  destruct (mant_bounds u Hu) as (Mb & _).
  pose proof (step_pos _ S0) as Gp.
  assert (Hy : 0 <= y) by (unfold y; nia).
  set (n' := div_near y w).
  assert (Hn' : 0 <= n') by (apply div_near_nonneg; assumption).
  pose proof (div_near_closest y w w_pos n) as Hcl. fold n' u in Hcl.
  destruct (Z_lt_ge_dec u y) as [C|C].
  - apply round_reflect; fold y; lia.
  - pose proof (round_closest u m sh Hu Hc) as Hnear. fold y x in Hnear.
    destruct (Z_le_gt_dec x u) as [D|D].
    + assert (E : n' = n).
      { apply Z.le_antisymm.
        - unfold n'. rewrite <- (div_near_exact n w w_pos). fold u.
          apply div_near_mono; lia.
        - unfold n', n. apply div_near_mono; lia. }
      now rewrite E.
    + destruct (Z_le_gt_dec y (n' * w)) as [F|F].
      * assert (R : shift (n' * w) P = shift u P /\ mant P (n' * w) = mant P u).
        { apply round_between; nia. }
        unfold rnd. destruct R as [-> ->]. reflexivity.
      * exfalso.
        pose proof (div_near_nearest_even x w w_pos) as Nx. fold n in Nx.
        pose proof (div_near_nearest_even y w w_pos) as Ny. fold n' in Ny.
        unfold nearest_even in Nx, Ny. fold u in Nx.
        assert (Hlt : n' < n) by nia.
        assert (E : n = n' + 1) by nia.
        destruct Nx as [Nx|[Nx Ex]]; [nia|].
        destruct Ny as [Ny|[Ny Ey]]; [nia|].
        rewrite E, Z.even_add, Ey in Ex. discriminate.
Qed.
End Grid.

(** ** Floats as mantissa and exponent *)

Lemma W_pos : 0 < W.
Proof. apply pow2_pos. unfold emin, emax, prec. lia. Qed.

Lemma float_of_ratio_rnd s n d :
  float_of_ratio s n d =
  let '(m, sh) := rnd d (n * W) in
  match m with
  | Zpos m =>
      if sh + emin <=? etop then S754_finite s m (sh + emin)
      else S754_infinity s
  | _ => S754_zero s
  end.
Proof. reflexivity. Qed.

Lemma digits2_size m : digits2_pos m = Pos.size m.
Proof. induction m; simpl; congruence. Qed.

Lemma digits2_log2 m : Zpos (digits2_pos m) = Z.log2 (Zpos m) + 1.
Proof.
  rewrite digits2_size. destruct m; simpl; try reflexivity; lia.
Qed.

Lemma valid_canonical s m e :
  valid_binary prec emax (S754_finite s m e) = true ->
  canonical (Zpos m) (e - emin) /\ e <= etop.
Proof.
  unfold valid_binary, bounded, canonical_mantissa, fexp.
  intros H. apply andb_true_iff in H as (H1 & H2).
  apply Z.leb_le in H2. split; [|exact H2].
  apply Z.eqb_eq in H1. rewrite digits2_log2 in H1.
  change (SpecFloat.emin prec emax) with (-1074) in H1.
  unfold emin, emax, prec in *.
  pose proof (Z.log2_spec (Zpos m) ltac:(lia)) as (L1 & L2).
  pose proof (Z.log2_nonneg (Zpos m)) as L0.
  set (L := Z.log2 (Zpos m)) in *.
  unfold canonical.
  destruct (Z.eq_dec L 52) as [E|E].
  - left. rewrite E in *. split; [split; [exact L1 | exact L2]|]. lia.
  - right. assert (L < 52 /\ e = -1074) as (HL & ->) by lia.
    split; [|lia]. split; [lia|].
    assert (2 ^ Z.succ L <= 2 ^ 52) by (apply Z.pow_le_mono_r; lia). lia.
Qed.

(** ** The two steps of [round] on a float *)

Lemma pow10_pos p : 0 <= p -> 0 < 10 ^ p.
Proof. intros. apply Z.pow_pos_nonneg; lia. Qed.

(** The decimal nearest to a float, as computed by [round_finite]. *)
Lemma round_finite_decimal s m sh p :
  0 <= sh -> 0 <= p ->
  Round.round_finite s m (sh + emin) p =
  let f := float_of_ratio s (div_near (Zpos m * step (10 ^ p) sh) W) (10 ^ p) in
  if is_inf f then Raise OverflowError else Ok f.
Proof.
  intros Hsh Hp. unfold Round.round_finite.
  rewrite (Z.max_l p 0), (Z.max_r (- p) 0) by lia.
  rewrite Z.pow_0_r, !Z.mul_1_r.
  pose proof (pow10_pos p Hp) as Pp.
  assert (E : div_near (Zpos m * 2 ^ Z.max (sh + emin) 0 * 10 ^ p)
                       (2 ^ Z.max (- (sh + emin)) 0)
              = div_near (Zpos m * step (10 ^ p) sh) W).
  { unfold step, W. destruct (Z_le_gt_dec 0 (sh + emin)) as [C|C].
    - rewrite (Z.max_l _ 0), (Z.max_r _ 0) by lia. rewrite Z.pow_0_r.
      rewrite <- (div_near_scale _ 1 (2 ^ (- emin))); try lia.
      + f_equal; try ring.
        replace sh with ((sh + emin) + (- emin)) at 2 by lia.
        rewrite (Z.pow_add_r 2 (sh + emin) (- emin))
          by (unfold emin, emax, prec in *; lia).
        ring.
      + apply W_pos.
    - rewrite (Z.max_r _ 0), (Z.max_l _ 0) by lia. rewrite Z.pow_0_r.
      rewrite <- (div_near_scale _ (2 ^ (- (sh + emin))) (2 ^ sh)).
      + f_equal; try ring.
        rewrite <- Z.pow_add_r by lia. f_equal. lia.
      + apply pow2_pos. lia.
      + now apply pow2_pos. }
  now rewrite E.
Qed.

Lemma rnd_canonical P u q sh :
  0 < P -> 0 <= u -> rnd P u = (q, sh) -> 0 < q ->
  canonical q sh /\ q * step P sh = mant P u * step P (shift u P).
Proof.
  intros HP Hu. unfold rnd, renorm. change (2 ^ prec) with (2 ^ 53).
  change (2 ^ (prec - 1)) with (2 ^ 52).
  destruct (shift_step P HP u Hu) as (S0 & _).
  destruct (mant_bounds P HP u Hu) as (Mb & Mge).
  destruct (Z.eqb_spec (mant P u) (2 ^ 53)) as [E|E]; intros [= <- <-] Hq.
  - split.
    + left. lia.
    + rewrite step_succ, E by assumption. lia.
  - split; [|reflexivity].
    unfold canonical.
    destruct (Z_le_gt_dec (2 ^ 52) (mant P u)); [left; lia|].
    right. split; lia.
Qed.

(** On a float, [round] returns a float that [round] leaves in place. *)
Lemma round_float_stable f p r :
  valid_binary prec emax f = true -> 0 <= p ->
  Round.round_float f p = Ok r -> Round.round_float r p = Ok r.
Proof.
  intros Hv Hp. destruct f as [s| s | |s m e]; try (now intros [= <-]).
  unfold Round.round_float at 1.
  destruct (Round.NDIGITS_MAX <? p) eqn:Hmax.
  { intros [= <-]. unfold Round.round_float. now rewrite Hmax. }
  destruct (p <? Round.NDIGITS_MIN) eqn:Hmin.
  { apply Z.ltb_lt in Hmin. unfold Round.NDIGITS_MIN in Hmin. lia. }
  apply valid_canonical in Hv as (Hc & _).
  replace e with ((e - emin) + emin) at 1 by lia.
  assert (Hsh : 0 <= e - emin) by (destruct Hc as [[_ ?]|[_ ?]]; lia).
  rewrite round_finite_decimal by assumption.
  set (P := 10 ^ p). pose proof (pow10_pos p Hp) as HP. fold P in HP.
  set (n := div_near (Zpos m * step P (e - emin)) W).
  assert (Hn : 0 <= n).
  { apply div_near_nonneg; [apply W_pos|].
    pose proof (step_pos P HP _ Hsh). lia. }
  assert (Hu : 0 <= n * W) by (pose proof W_pos; nia).
  cbv zeta. rewrite float_of_ratio_rnd.
  destruct (rnd P (n * W)) as [q sh] eqn:R.
  destruct q as [|q|q]; [now intros [= <-] | | now intros [= <-]].
  destruct (sh + emin <=? etop) eqn:Htop; [|discriminate].
  intros [= <-]. unfold Round.round_float. rewrite Hmax, Hmin.
  destruct (rnd_canonical P _ _ _ HP Hu R ltac:(lia)) as (Rc & Rv).
  assert (Hsh' : 0 <= sh) by (destruct Rc as [[_ ?]|[_ ?]]; lia).
  rewrite round_finite_decimal by assumption. fold P.
  cbv zeta. rewrite float_of_ratio_rnd, Rv.
  pose proof (round_trip P HP W W_pos (Zpos m) (e - emin) Hc) as RT.
  cbv zeta in RT. fold n in RT. rewrite RT, R, Htop. reflexivity.
Qed.

Lemma round_stable a p r :
  valid_num a -> 0 <= p -> Round.round a p = Ok r -> Round.round r p = Ok r.
Proof.
  intros Hv Hp. destruct a as [z|f]; simpl.
  - intros [= <-]. simpl. unfold Round.round_int.
    destruct (0 <=? p) eqn:E; [reflexivity|]. apply Z.leb_gt in E. lia.
  - intros H. inv_bind H as r' Hr. injection H as <-.
    simpl. now rewrite (round_float_stable f p r' Hv Hp Hr).
Qed.

Lemma quantized_stable p coords : 0 <= p -> forall r,
  valid_value coords -> quantized p coords r -> quantized p r r.
Proof.
  intros Hp.
  induction coords as [n|l IH] using value_induction; intros r Hv H;
    inversion H as [x y rest rx ry Hx Hy|c l' rs Hrs]; subst.
  - inversion Hv as [|? Hl]; subst.
    inversion Hl as [|? ? Vx Hl']; subst. inversion Hl' as [|? ? Vy _]; subst.
    inversion Vx; subst. inversion Vy; subst.
    constructor; [apply (round_stable x) | apply (round_stable y)]; assumption.
  - inversion Hv as [|? Hl]; subst.
    assert (F : Forall2 (quantized p) rs rs).
    { clear H. revert IH Hl Hrs. generalize (VList c :: l').
      intros l0 IH Hl Hrs.
      induction Hrs as [|a b l1 rs0 Hab Hrs IHrs]; constructor.
      - inversion IH; inversion Hl; subst. eauto.
      - inversion IH; inversion Hl; subst. auto. }
    inversion Hrs as [|? b ? rs' Hb Hrs']; subst.
    inversion Hb; subst; now constructor.
Qed.

(** C8. Idempotent quantization: for a precision [p >= 0], quantizing the
    result of the quantizer again changes nothing (and where the first pass
    raises, so does the pair). *)
Theorem redondear_coordenadas_idempotent coords p :
  0 <= p -> valid_value coords ->
  (r <- _redondear_coordenadas coords p ;; _redondear_coordenadas r p)
  = _redondear_coordenadas coords p.
Proof.
  intros Hp Hv.
  destruct (_redondear_coordenadas coords p) as [r|e] eqn:E; [|reflexivity].
  cbn [bind]. apply quantized_redondear.
  apply redondear_quantized in E.
  eapply quantized_stable; eauto.
Qed.

Lemma redondear_coordenadas_idempotent_witness :
  (r <- _redondear_coordenadas con_altitud 3 ;; _redondear_coordenadas r 3)
  = _redondear_coordenadas con_altitud 3.
Proof.
  apply redondear_coordenadas_idempotent.
  - lia.
  - unfold con_altitud, punto.
    repeat (constructor; try (vm_compute; reflexivity)).
Defined.

(** * Further properties of the collection processor *)

(** ** Counting points *)

Section Counting.
Local Open Scope nat_scope.

Lemma suma_sumM l :
  (fix suma (l : list value) : result nat :=
     match l with
     | [] => Ok 0
     | c :: l' =>
         n <- _contar_coordenadas c ;;
         s <- suma l' ;;
         Ok (n + s)
     end) l
  = sumM _contar_coordenadas l.
Proof. induction l as [|c l IH]; [reflexivity|]. simpl. now rewrite IH. Qed.

Lemma contar_node c l :
  _contar_coordenadas (VList (VList c :: l)) =
  sumM _contar_coordenadas (VList c :: l).
Proof. rewrite <- suma_sumM. reflexivity. Qed.

Lemma contar_leaf x l : _contar_coordenadas (VList (VNum x :: l)) = Ok 1.
Proof. reflexivity. Qed.

Lemma sumM_Forall2 {A B : Type} (f : A -> result nat) (g : B -> result nat) l l' :
  Forall2 (fun a b => forall n, f a = Ok n -> exists n', g b = Ok n' /\ n' <= n) l l' ->
  forall n, sumM f l = Ok n -> exists n', sumM g l' = Ok n' /\ n' <= n.
Proof.
  induction 1 as [|a b l l' Hab Hl IH]; simpl; intros n H.
  - injection H as <-. eauto.
  - inv_bind H as na Ha. inv_bind H as s Hs. injection H as <-.
    destruct (Hab _ Ha) as (nb & -> & Hle).
    destruct (IH _ Hs) as (s' & -> & Hle').
    cbn [bind]. eexists; split; [reflexivity | lia].
Qed.

Lemma sumM_subsequence {A : Type} (f : A -> result nat) s l :
  subsequence s l ->
  forall n, sumM f l = Ok n -> exists n', sumM f s = Ok n' /\ n' <= n.
Proof.
  induction 1 as [|x s l Hs IH|x s l Hs IH]; simpl; intros n H.
  - injection H as <-. eauto.
  - inv_bind H as nx Hx. inv_bind H as m Hm. injection H as <-.
    destruct (IH _ Hm) as (m' & -> & Hle). rewrite Hx. cbn [bind].
    eexists; split; [reflexivity | lia].
  - inv_bind H as nx Hx. inv_bind H as m Hm. injection H as <-.
    destruct (IH _ Hm) as (m' & Hm' & Hle). exists m'. split; [assumption | lia].
Qed.

Lemma contar_positive coords : forall n,
  _contar_coordenadas coords = Ok n -> 1 <= n.
Proof.
  induction coords as [x|l IH] using value_induction; intros n H;
    [discriminate|].
  destruct l as [|[x|c] l]; [discriminate| |].
  - rewrite contar_leaf in H. injection H as <-. lia.
  - rewrite contar_node in H. simpl in H.
    inv_bind H as nc Hc. inv_bind H as s Hs. injection H as <-.
    inversion IH as [|? ? Hc' _]; subst. specialize (Hc' _ Hc). lia.
Qed.
End Counting.

Section CountingSteps.
Context {L : Libm}.
Local Open Scope nat_scope.

Lemma quantized_list p coords r : quantized p coords r -> exists l, r = VList l.
Proof. inversion 1; eauto. Qed.

Lemma contar_quantized p coords : forall r,
  quantized p coords r ->
  exists n, _contar_coordenadas coords = Ok n /\ _contar_coordenadas r = Ok n.
Proof.
  induction coords as [x0|l IH] using value_induction; intros r H;
    inversion H as [x y rest rx ry Hx Hy|c l' rs Hrs]; subst.
  - exists 1. split; reflexivity.
  - assert (S : exists n, sumM _contar_coordenadas (VList c :: l') = Ok n /\
                          sumM _contar_coordenadas rs = Ok n).
    { clear H. revert IH Hrs. generalize (VList c :: l').
      intros l0 IH Hrs.
      induction Hrs as [|a b l1 rs0 Hab Hrs IHrs]; [exists 0; split; reflexivity|].
      inversion IH as [|? ? Ha IHl]; subst.
      destruct (Ha _ Hab) as (na & Ea & Eb).
      destruct (IHrs IHl) as (s & Es & Es').
      exists (na + s). simpl. rewrite Ea, Eb, Es, Es'. split; reflexivity. }
    destruct S as (n & S1 & S2). exists n.
    inversion Hrs as [|? b ? rs' Hb Hrs']; subst.
    destruct (quantized_list _ _ _ Hb) as (lb & ->).
    rewrite !contar_node. auto.
Qed.

(** X6. The quantizer keeps the number of points. *)
Theorem redondear_keeps_count coords p r :
  _redondear_coordenadas coords p = Ok r ->
  exists n, _contar_coordenadas coords = Ok n /\
            _contar_coordenadas r = Ok n /\ 1 <= n.
Proof.
  intros H. apply redondear_quantized in H.
  destruct (contar_quantized _ _ _ H) as (n & H1 & H2).
  exists n. repeat split; auto. eapply contar_positive; eauto.
Qed.

Lemma contar_simplified r anillo n :
  simplified r anillo ->
  _contar_coordenadas (VList anillo) = Ok n ->
  exists n', _contar_coordenadas (VList r) = Ok n' /\ n' <= n.
Proof.
  intros (Hs & Hh & _) H.
  destruct anillo as [|a l]; [discriminate|].
  destruct r as [|b r]; [discriminate|]. injection Hh as ->.
  destruct a as [x|c].
  - rewrite contar_leaf in *. injection H as <-. eauto.
  - rewrite contar_node in *. eapply sumM_subsequence; eauto.
Qed.

Lemma contar_anillo depth anillo epsilon r n :
  _simplificar_anillo depth anillo epsilon = Ok r ->
  _contar_coordenadas (VList anillo) = Ok n ->
  exists n', _contar_coordenadas (VList r) = Ok n' /\ n' <= n.
Proof.
  intros H Hn.
  apply simplificar_anillo_cases in H as (s & Hs & [[_ ->]|[_ ->]]); [eauto|].
  apply douglas_peucker_simplified in Hs. eapply contar_simplified; eauto.
Qed.

Lemma simplificar_anillos_Forall2 depth poligono epsilon v :
  simplificar_anillos depth poligono epsilon = Ok v ->
  exists anillos rs,
    poligono = VList anillos /\ v = VList rs /\
    Forall2 (fun a r => exists pts pts',
                 a = VList pts /\ r = VList pts' /\
                 _simplificar_anillo depth pts epsilon = Ok pts') anillos rs.
Proof.
  unfold simplificar_anillos. intros H.
  inv_bind H as anillos Ha. inv_bind H as rs Hrs. injection H as <-.
  destruct poligono as [|l]; [discriminate|]. injection Ha as ->.
  exists anillos, rs. repeat split.
  apply mapM_Forall2 in Hrs.
  induction Hrs as [|a r l rs' Hab Hrs IH]; constructor; [|assumption].
  inv_bind Hab as pts Hp. inv_bind Hab as pts' Hp'. injection Hab as <-.
  destruct a as [|la]; [discriminate|]. injection Hp as ->.
  exists pts, pts'. auto.
Qed.

Lemma contar_anillos depth poligono epsilon v n :
  simplificar_anillos depth poligono epsilon = Ok v ->
  _contar_coordenadas poligono = Ok n ->
  exists n', _contar_coordenadas v = Ok n' /\ n' <= n.
Proof.
  intros H Hn.
  apply simplificar_anillos_Forall2 in H as (anillos & rs & -> & -> & F).
  destruct F as [|a r l rs' (pts & pts' & -> & -> & Hr) F]; [discriminate|].
  rewrite contar_node in *.
  revert n Hn. apply sumM_Forall2. constructor.
  - intros n Hn. eapply contar_anillo; eauto.
  - clear Hr. induction F as [|a r l0 rs0 (q & q' & -> & -> & Hq) F IH];
      constructor; [|assumption].
    intros n Hn. eapply contar_anillo; eauto.
Qed.
End CountingSteps.

Section CountingStepsExamples.
Local Open Scope nat_scope.

Lemma redondear_keeps_count_witness :
  exists n, _contar_coordenadas con_altitud = Ok n /\
            _contar_coordenadas
              (VList [VList [punto (decimal 1235 3) (decimal 25 1);
                             punto (PyInt 7) (decimal (-74082) 3)]]) = Ok n /\
            1 <= n.
Proof.
  apply (redondear_keeps_count con_altitud 3). vm_compute. reflexivity.
Defined.
End CountingStepsExamples.

(** ** The geometry transformer keeps the structure *)

Section GeometryStructure.
Context {L : Libm}.
Local Open Scope nat_scope.

Lemma simplificar_anillos_list depth poligono epsilon v :
  simplificar_anillos depth poligono epsilon = Ok v ->
  (exists l, poligono = VList l) /\ (exists l, v = VList l).
Proof.
  intros H. apply simplificar_anillos_Forall2 in H as (a & r & -> & -> & _).
  eauto.
Qed.

(** X7. A Polygon comes back a Polygon with each ring replaced by its
    normalization; a MultiPolygon comes back a MultiPolygon with each member
    polygon treated so, ring for ring. *)
Theorem simplificar_geometria_structure depth geom epsilon geom' :
  _simplificar_geometria depth geom epsilon = Ok geom' ->
  g_type geom' = g_type geom /\
  (g_type geom = Some "Polygon"%string ->
   exists anillos rs,
     g_coordinates geom = Some (VList anillos) /\
     g_coordinates geom' = Some (VList rs) /\
     Forall2 (fun a r => exists pts pts',
                  a = VList pts /\ r = VList pts' /\
                  _simplificar_anillo depth pts epsilon = Ok pts') anillos rs) /\
  (g_type geom = Some "MultiPolygon"%string ->
   exists poligonos nuevos,
     g_coordinates geom = Some (VList poligonos) /\
     g_coordinates geom' = Some (VList nuevos) /\
     Forall2 (fun pol nv => simplificar_anillos depth pol epsilon = Ok nv)
             poligonos nuevos).
Proof.
  unfold _simplificar_geometria. intros H.
  inv_bind H as tipo Ht. inv_bind H as coords Hc.
  destruct (g_type geom) as [t|] eqn:Et; [|discriminate].
  destruct (g_coordinates geom) as [c|] eqn:Ec; [|discriminate].
  injection Ht as <-. injection Hc as <-.
  destruct (String.eqb_spec t "Polygon") as [->|Hp].
  - inv_bind H as nuevos Hn. injection H as <-. cbn [g_type g_coordinates].
    split; [reflexivity|]. split; [|discriminate].
    intros _. apply simplificar_anillos_Forall2 in Hn as (a & r & -> & -> & F).
    eauto.
  - destruct (String.eqb_spec t "MultiPolygon") as [->|Hm].
    + inv_bind H as poligonos Hl. inv_bind H as nuevos Hn. injection H as <-.
      cbn [g_type g_coordinates]. split; [reflexivity|]. split; [discriminate|].
      intros _. destruct c as [|l]; [discriminate|]. injection Hl as ->.
      exists poligonos, nuevos. repeat split. now apply mapM_Forall2.
    + injection H as <-. rewrite Et. split; [reflexivity|].
      split; intros [= E]; congruence.
Qed.

(** The transformer never adds a point: what it returns counts no more
    points than what it was given. *)
Lemma contar_geometria depth geom epsilon geom' coords n :
  _simplificar_geometria depth geom epsilon = Ok geom' ->
  g_coordinates geom = Some coords ->
  _contar_coordenadas coords = Ok n ->
  exists coords' n',
    g_coordinates geom' = Some coords' /\
    _contar_coordenadas coords' = Ok n' /\ n' <= n.
Proof.
  intros H Hc Hn.
  unfold _simplificar_geometria in H. rewrite Hc in H.
  inv_bind H as tipo Etipo. cbn [lookup bind] in H.
  destruct (g_type geom) as [t|] eqn:Et; [|discriminate]. injection Etipo as <-.
  destruct (String.eqb_spec t "Polygon") as [->|Hp].
  - inv_bind H as nuevos Hnv. injection H as <-. cbn [g_coordinates].
    destruct (contar_anillos _ _ _ _ _ Hnv Hn) as (n' & Hn' & Hle). eauto.
  - destruct (String.eqb_spec t "MultiPolygon") as [->|Hm].
    + inv_bind H as poligonos Hl. inv_bind H as nuevos F. injection H as <-.
      destruct coords as [|l0]; [discriminate|]. injection Hl as ->.
      apply mapM_Forall2 in F. cbn [g_coordinates].
      exists (VList nuevos).
      destruct F as [|pol nv l l' Hpn F]; [discriminate|].
      destruct (simplificar_anillos_list _ _ _ _ Hpn) as ((lp & ->) & (lv & ->)).
      rewrite contar_node in Hn. rewrite contar_node.
      assert (G : exists n', sumM _contar_coordenadas (VList lv :: l') = Ok n' /\ n' <= n).
      { revert n Hn. apply sumM_Forall2. constructor.
        - intros m Hm'. eapply contar_anillos; eauto.
        - revert F. apply Forall2_impl.
          intros a b Hab m Hm'. eapply contar_anillos; eauto. }
      destruct G as (n' & G1 & G2). eauto.
    + injection H as <-. exists coords, n. auto.
Qed.

End GeometryStructure.

Section GeometryStructureExamples.
Local Open Scope nat_scope.

Lemma simplificar_geometria_structure_witness :
  g_type (Geometry (Some "Polygon"%string) (Some (VList [VList casi_recto])))
  = g_type (Geometry (Some "Polygon"%string) (Some (VList [VList casi_recto]))) /\
  (g_type (Geometry (Some "Polygon"%string) (Some (VList [VList casi_recto])))
   = Some "Polygon"%string ->
   exists anillos rs,
     g_coordinates (Geometry (Some "Polygon"%string) (Some (VList [VList casi_recto])))
     = Some (VList anillos) /\
     g_coordinates (Geometry (Some "Polygon"%string) (Some (VList [VList cuadrado])))
     = Some (VList rs) /\
     Forall2 (fun a r => exists pts pts',
                  a = VList pts /\ r = VList pts' /\
                  _simplificar_anillo 7 pts (decimal 1 2) = Ok pts') anillos rs) /\
  (g_type (Geometry (Some "Polygon"%string) (Some (VList [VList casi_recto])))
   = Some "MultiPolygon"%string ->
   exists poligonos nuevos,
     g_coordinates (Geometry (Some "Polygon"%string) (Some (VList [VList casi_recto])))
     = Some (VList poligonos) /\
     g_coordinates (Geometry (Some "Polygon"%string) (Some (VList [VList cuadrado])))
     = Some (VList nuevos) /\
     Forall2 (fun pol nv => simplificar_anillos 7 pol (decimal 1 2) = Ok nv)
             poligonos nuevos).
Proof.
  apply (simplificar_geometria_structure 7
           (Geometry (Some "Polygon"%string) (Some (VList [VList casi_recto])))
           (decimal 1 2)
           (Geometry (Some "Polygon"%string) (Some (VList [VList cuadrado])))).
  vm_compute. reflexivity.
Defined.
End GeometryStructureExamples.

(** ** The loop over the features *)

Section Pipeline.
Context {L : Libm}.
Context {V : Type}.
Local Open Scope nat_scope.

Lemma procesar_feature_inv depth (feat feat' : feature V) :
  procesar_feature depth feat = Ok feat' ->
  exists geom geom1 coords1 rc props c n,
    f_geometry feat = Some geom /\
    _simplificar_geometria depth geom EPSILON = Ok geom1 /\
    g_coordinates geom1 = Some coords1 /\
    _redondear_coordenadas coords1 PRECISION = Ok rc /\
    f_properties feat = Some props /\
    member "DPTOMPIO" props = Some c /\
    member "MPIO_CNMBR" props = Some n /\
    feat' = Feature (Some (Geometry (g_type geom1) (Some rc)))
                    (Some [("c"%string, c); ("n"%string, n)]).
Proof.
  unfold procesar_feature. intros H.
  inv_bind H as geom Hg. inv_bind H as geom1 Hg1. inv_bind H as coords1 Hc1.
  inv_bind H as rc Hrc. inv_bind H as props Hp. inv_bind H as c Hc.
  inv_bind H as props' Hp'. inv_bind H as n Hn. injection H as <-.
  destruct (f_geometry feat) as [g|]; [|discriminate]. injection Hg as <-.
  destruct (g_coordinates geom1) as [c1|] eqn:E1; [|discriminate].
  injection Hc1 as <-.
  destruct (f_properties feat) as [ps|]; [|discriminate].
  injection Hp as <-. injection Hp' as <-.
  destruct (member "DPTOMPIO" ps) as [c'|] eqn:E2; [|discriminate].
  injection Hc as <-.
  destruct (member "MPIO_CNMBR" ps) as [n'|] eqn:E3; [|discriminate].
  injection Hn as <-.
  exists g, geom1, c1, rc, ps, c', n'. repeat split; auto.
Qed.

Lemma simplificar_geojson_inv depth (features : list (feature V)) res :
  simplificar_geojson depth features = Ok res ->
  contar_features features = Ok (coords_antes res) /\
  mapM (procesar_feature depth) features = Ok (r_features res) /\
  contar_features (r_features res) = Ok (coords_despues res) /\
  coords_antes res <> 0.
Proof.
  unfold simplificar_geojson. intros H.
  inv_bind H as antes Ha. inv_bind H as procesados Hp. inv_bind H as despues Hd.
  inv_bind H as q Hq. inv_bind H as r Hr. inv_bind H as red Hred.
  injection H as <-. cbn [coords_antes r_features coords_despues].
  repeat split; auto.
  intros ->. discriminate.
Qed.

(** X9. The collection comes back feature for feature, each with exactly the
    two properties ["c"] and ["n"], holding what the input feature had under
    ["DPTOMPIO"] and ["MPIO_CNMBR"]; no feature lacking one of them is ever
    returned. *)
Theorem simplificar_geojson_properties depth (features : list (feature V)) res :
  simplificar_geojson depth features = Ok res ->
  Forall2 (fun feat feat' =>
             exists props c n,
               f_properties feat = Some props /\
               member "DPTOMPIO" props = Some c /\
               member "MPIO_CNMBR" props = Some n /\
               f_properties feat' = Some [("c"%string, c); ("n"%string, n)])
          features (r_features res).
Proof.
  intros H. apply simplificar_geojson_inv in H as (_ & H & _).
  apply mapM_Forall2 in H. revert H. apply Forall2_impl.
  intros feat feat' H.
  apply procesar_feature_inv in H
    as (g & g1 & c1 & rc & props & c & n & _ & _ & _ & _ & Hp & Hc & Hn & ->).
  exists props, c, n. auto.
Qed.

Lemma procesar_feature_count depth (feat feat' : feature V) geom coords n :
  procesar_feature depth feat = Ok feat' ->
  f_geometry feat = Some geom -> g_coordinates geom = Some coords ->
  _contar_coordenadas coords = Ok n ->
  exists geom' coords' n',
    f_geometry feat' = Some geom' /\ g_coordinates geom' = Some coords' /\
    _contar_coordenadas coords' = Ok n' /\ n' <= n.
Proof.
  intros H Hg Hc Hn.
  apply procesar_feature_inv in H
    as (g & g1 & c1 & rc & props & c & m & Eg & Hs & Ec1 & Hr & _ & _ & _ & ->).
  rewrite Hg in Eg. injection Eg as <-.
  destruct (contar_geometria _ _ _ _ _ _ Hs Hc Hn)
    as (c1' & n1 & Ec1' & Hn1 & Hle).
  rewrite Ec1 in Ec1'. injection Ec1' as <-.
  apply redondear_quantized in Hr.
  destruct (contar_quantized _ _ _ Hr) as (k & Hk1 & Hk2).
  rewrite Hn1 in Hk1. injection Hk1 as <-.
  exists (Geometry (g_type g1) (Some rc)), rc, n1. auto.
Qed.

Lemma contar_features_procesados depth (features procesados : list (feature V)) :
  Forall2 (fun feat feat' => procesar_feature depth feat = Ok feat')
          features procesados ->
  forall antes, contar_features features = Ok antes ->
  exists despues, contar_features procesados = Ok despues /\ despues <= antes.
Proof.
  induction 1 as [|feat feat' l l' Hf F IH]; simpl; intros antes H.
  - injection H as <-. eauto.
  - inv_bind H as geom Hg. inv_bind H as coords Hc. inv_bind H as n Hn.
    inv_bind H as s Hs. injection H as <-.
    destruct (f_geometry feat) as [g|] eqn:Eg; [|discriminate]. injection Hg as <-.
    destruct (g_coordinates g) as [c|] eqn:Ec; [|discriminate]. injection Hc as <-.
    destruct (procesar_feature_count _ _ _ _ _ _ Hf Eg Ec Hn)
      as (g' & c' & n' & E1 & E2 & E3 & Hle).
    destruct (IH _ Hs) as (s' & Es' & Hle').
    rewrite E1. cbn [lookup bind]. rewrite E2. cbn [lookup bind].
    rewrite E3. cbn [bind]. rewrite Es'. cbn [bind].
    eexists; split; [reflexivity | lia].
Qed.

(** X10. The counts reported are those of the input and of the returned
    collection, which has as many features; the count after processing never
    exceeds the count before, and both are at least 1. *)
Theorem simplificar_geojson_counts depth (features : list (feature V)) res :
  simplificar_geojson depth features = Ok res ->
  contar_features features = Ok (coords_antes res) /\
  contar_features (r_features res) = Ok (coords_despues res) /\
  length (r_features res) = length features /\
  1 <= coords_despues res <= coords_antes res.
Proof.
  intros H. apply simplificar_geojson_inv in H as (Ha & Hm & Hd & Hz).
  apply mapM_Forall2 in Hm.
  destruct (contar_features_procesados _ _ _ Hm _ Ha) as (d & Hd' & Hle).
  rewrite Hd in Hd'. injection Hd' as <-.
  repeat split; auto.
  - symmetry. eapply Forall2_length; eauto.
  - destruct Hm as [|feat feat' l l' Hf F]; [simpl in Ha; congruence|].
    simpl in Hd. inv_bind Hd as g Hg. inv_bind Hd as c Hc. inv_bind Hd as n Hn.
    inv_bind Hd as s Hs. injection Hd as <-.
    apply contar_positive in Hn. lia.
Qed.

(** X11. An empty collection makes the percentage divide by zero, so a collection
    that comes back has at least one feature. *)
Theorem simplificar_geojson_empty depth :
  simplificar_geojson depth ([] : list (feature V)) = Raise ZeroDivisionError /\
  forall (features : list (feature V)) res,
    simplificar_geojson depth features = Ok res -> features <> [].
Proof.
  split; [reflexivity|].
  intros features res H ->. discriminate.
Qed.
End Pipeline.

Lemma simplificar_geojson_properties_witness :
  simplificar_geojson 8 muestra = Ok resumen_muestra /\
  Forall2 (fun feat feat' =>
             exists props c n,
               f_properties feat = Some props /\
               member "DPTOMPIO" props = Some c /\
               member "MPIO_CNMBR" props = Some n /\
               f_properties feat' = Some [("c"%string, c); ("n"%string, n)])
          muestra (r_features resumen_muestra).
Proof.
  split; [vm_compute; reflexivity|].
  apply (simplificar_geojson_properties 8 muestra resumen_muestra).
  vm_compute; reflexivity.
Defined.

Lemma simplificar_geojson_counts_witness :
  simplificar_geojson 8 muestra = Ok resumen_muestra /\
  (1 <= coords_despues resumen_muestra <= coords_antes resumen_muestra)%nat.
Proof.
  split; [vm_compute; reflexivity|].
  apply (simplificar_geojson_counts 8 muestra resumen_muestra).
  vm_compute; reflexivity.
Defined.

Lemma simplificar_geojson_empty_witness :
  simplificar_geojson 8 muestra = Ok resumen_muestra /\ muestra <> [].
Proof.
  split; [vm_compute; reflexivity|].
  apply (proj2 (simplificar_geojson_empty (V := string) 8) muestra resumen_muestra).
  vm_compute; reflexivity.
Defined.

(** ** The recursion limit and the simplifier *)

Section Depth.
Context {L : Libm}.
Local Open Scope nat_scope.

Lemma douglas_peucker_deeper depth : forall puntos epsilon r,
  _douglas_peucker depth puntos epsilon = Ok r ->
  _douglas_peucker (S depth) puntos epsilon = Ok r.
Proof.
  induction depth as [|depth IH]; intros puntos epsilon r H; [discriminate|].
  rewrite douglas_peucker_S in H. rewrite (douglas_peucker_S (S depth)).
  destruct (length puntos <=? 2); [assumption|].
  inv_bind H as st Hst. rewrite Hst. cbn [bind].
  destruct (Num.gtb (fst st) epsilon); [|assumption].
  inv_bind H as izq Hi. inv_bind H as der Hd.
  now rewrite (IH _ _ _ Hi), (IH _ _ _ Hd).
Qed.

(** X2. A run that completes under one recursion limit gives the same list
    under any larger one. *)
Theorem douglas_peucker_limit depth depth' puntos epsilon r :
  _douglas_peucker depth puntos epsilon = Ok r -> depth <= depth' ->
  _douglas_peucker depth' puntos epsilon = Ok r.
Proof.
  intros H. induction 1 as [|d Hd IH]; [assumption|].
  now apply douglas_peucker_deeper.
Qed.

(** X5. The normalizer invents no point and keeps a closed ring closed. *)
Theorem simplificar_anillo_closed depth anillo epsilon r :
  _simplificar_anillo depth anillo epsilon = Ok r ->
  subsequence r anillo /\ (closed anillo -> closed r).
Proof.
  intros H.
  apply simplificar_anillo_cases in H as (s & Hs & [[_ ->]|[_ ->]]).
  - split; [apply subsequence_refl | auto].
  - apply douglas_peucker_simplified in Hs. split; [apply Hs|].
    intros (p0 & pl & H0 & Hl & Heq).
    assert (Hne : anillo <> []) by (intros ->; discriminate).
    destruct (elem_ends s anillo Hne Hs) as (q0 & ql & E0 & E0' & El & El').
    rewrite H0 in E0. injection E0 as <-.
    rewrite Hl in El. injection El as <-.
    exists p0, pl. auto.
Qed.

End Depth.

Section DepthExamples.
Local Open Scope nat_scope.

Lemma douglas_peucker_limit_witness :
  _douglas_peucker 50 casi_recto (decimal 1 2) = Ok cuadrado.
Proof.
  apply (douglas_peucker_limit 4 50 casi_recto (decimal 1 2) cuadrado).
  - vm_compute. reflexivity.
  - lia.
Defined.

Lemma simplificar_anillo_closed_witness :
  subsequence cuadrado casi_recto /\ (closed casi_recto -> closed cuadrado).
Proof.
  apply (simplificar_anillo_closed 7 casi_recto (decimal 1 2)).
  vm_compute. reflexivity.
Defined.
End DepthExamples.

(** ** The distance is never negative *)

Section DistanceSign.
Context {L : Libm}.

Lemma round_aux_not_negative m e l :
  Num.ltb (PyFloat (binary_round_aux prec emax false m e l)) (PyInt 0) = false.
Proof.
  unfold binary_round_aux.
  destruct (shr_fexp prec emax m e l) as [mrs e'].
  destruct (shr_fexp prec emax _ e' loc_Exact) as [mrs' e''].
  destruct (shr_m mrs') as [|q|q]; try reflexivity.
  destruct (e'' <=? emax - prec); [|reflexivity].
  unfold Num.ltb, Num.compare. cbn [xval_of xval_of_float cond_Zopp xcompare].
  rewrite Z.mul_0_l.
  destruct (Zpos q * 2 ^ (e'' - Z.min e'' 0) ?= 0) eqn:C; try reflexivity.
  apply -> Z.compare_lt_iff in C.
  assert (0 < 2 ^ (e'' - Z.min e'' 0)) by (apply Z.pow_pos_nonneg; lia).
  nia.
Qed.

Lemma sqrt_not_negative a d :
  Num.sqrt a = Ok d -> Num.ltb d (PyInt 0) = false.
Proof.
  unfold Num.sqrt. intros H. inv_bind H as f Hf.
  destruct f as [s|[]| |[] m e]; try discriminate; injection H as <-;
    try reflexivity.
  unfold SFsqrt.
  destruct (SFsqrt_core_binary prec emax (Zpos m) e) as [[q e'] l].
  apply round_aux_not_negative.
Qed.

(** X1. Whatever the three points, a distance that is returned is not below
    zero (it may be a NaN). *)
Theorem distancia_not_negative punto inicio fin d :
  _punto_distancia_a_linea punto inicio fin = Ok d ->
  Num.ltb d (PyInt 0) = false.
Proof.
  unfold _punto_distancia_a_linea. intros H. inv_bind H as c Hc.
  destruct c.
  - unfold euclidean in H. do 9 inv_bind H.
    eapply sqrt_not_negative; eauto.
  - unfold distancia_proyectada in H. do 17 inv_bind H. cbv zeta in H.
    do 13 inv_bind H.
    eapply sqrt_not_negative; eauto.
Qed.

End DistanceSign.

Section DistanceSignExamples.

Lemma distancia_not_negative_witness :
  Num.ltb (PyFloat (float_of_ratio false 10 1)) (PyInt 0) = false.
Proof.
  apply (distancia_not_negative (punto_int 5 10) (punto_int 0 0) (punto_int 10 0)).
  vm_compute. reflexivity.
Defined.
End DistanceSignExamples.

(** * The tolerance bound and repeated simplification *)

Section Tolerance.
Context {L : Libm}.
Local Open Scope nat_scope.

Lemma xcompare_gt_trans a c b :
  Num.xcompare a c = Some Gt -> Num.xcompare c b = Some Gt ->
  Num.xcompare a b = Some Gt.
Proof.
  destruct a as [|[]|m1 e1], b as [|[]|m2 e2], c as [|[]|m3 e3];
    simpl; try congruence.
  intros [= H1] [= H2]. f_equal.
  set (E := Z.min e1 (Z.min e2 e3)).
  rewrite (fin_compare_scaled m1 e1 m3 e3 E) in H1 by (unfold E; lia).
  rewrite (fin_compare_scaled m3 e3 m2 e2 E) in H2 by (unfold E; lia).
  rewrite (fin_compare_scaled m1 e1 m2 e2 E) by (unfold E; lia).
  apply Z.compare_gt_iff. apply Z.compare_gt_iff in H1, H2. lia.
Qed.

Lemma xcompare_gt_le a c b :
  Num.xcompare a b = Some Gt -> Num.xcompare c b <> Some Gt -> c <> XNaN ->
  Num.xcompare a c = Some Gt.
Proof.
  destruct a as [|[]|m1 e1], b as [|[]|m2 e2], c as [|[]|m3 e3];
    simpl; try congruence.
  intros [= H1] H2 _. f_equal.
  set (E := Z.min e1 (Z.min e2 e3)).
  rewrite (fin_compare_scaled m1 e1 m2 e2 E) in H1 by (unfold E; lia).
  rewrite (fin_compare_scaled m3 e3 m2 e2 E) in H2 by (unfold E; lia).
  rewrite (fin_compare_scaled m1 e1 m3 e3 E) by (unfold E; lia).
  apply Z.compare_gt_iff. apply Z.compare_gt_iff in H1.
  assert (H3 : (m3 * 2 ^ (e3 - E) <= m2 * 2 ^ (e2 - E))%Z).
  { apply Z.compare_le_iff. intros H. apply H2. now rewrite H. }
  lia.
Qed.

Lemma gtb_trans a c b :
  Num.gtb a c = true -> Num.gtb c b = true -> Num.gtb a b = true.
Proof.
  unfold Num.gtb, Num.compare. intros H1 H2.
  destruct (Num.xcompare (Num.xval_of a) (Num.xval_of c)) as [[]|] eqn:E1;
    try discriminate.
  destruct (Num.xcompare (Num.xval_of c) (Num.xval_of b)) as [[]|] eqn:E2;
    try discriminate.
  now rewrite (xcompare_gt_trans _ _ _ E1 E2).
Qed.

Lemma gtb_le a c b :
  Num.gtb a b = true -> Num.gtb c b = false -> Num.xval_of c <> XNaN ->
  Num.gtb a c = true.
Proof.
  unfold Num.gtb, Num.compare. intros H1 H2 Hc.
  destruct (Num.xcompare (Num.xval_of a) (Num.xval_of b)) as [[]|] eqn:E1;
    try discriminate.
  rewrite (xcompare_gt_le _ _ _ E1); auto.
  intros E2. now rewrite E2 in H2.
Qed.

Lemma gtb_not_nan a b : Num.gtb a b = true -> Num.xval_of a <> XNaN.
Proof.
  unfold Num.gtb, Num.compare. intros H E. rewrite E in H. discriminate.
Qed.

Lemma gtb_irrefl a : Num.gtb a a = false.
Proof.
  unfold Num.gtb, Num.compare.
  destruct (Num.xval_of a) as [|[]|m e]; simpl; auto.
  now rewrite Z.compare_refl.
Qed.

(** What the loop leaves in [distancia_max]: a number that no visited
    point's distance exceeds. *)
Lemma foldM_scan_max puntos p0 pl l : forall st st',
  foldM (scan_step puntos) l st = Ok st' ->
  elem puntos 0 = Ok p0 -> ultimo puntos = Ok pl ->
  Num.xval_of (fst st) <> XNaN ->
  Num.xval_of (fst st') <> XNaN /\
  Num.gtb (fst st) (fst st') = false /\
  forall i, In i l -> exists p, elem puntos i = Ok p /\ cerca (fst st') p0 pl p.
Proof.
  induction l as [|i l IH]; simpl; intros st st' H H0 Hl Hst.
  - injection H as <-. repeat split; auto using gtb_irrefl. tauto.
  - inv_bind H as st1 Hstep. unfold scan_step in Hstep.
    inv_bind Hstep as p Hp. inv_bind Hstep as p0' Hp0. inv_bind Hstep as pl' Hpl.
    inv_bind Hstep as d Hd.
    rewrite H0 in Hp0. injection Hp0 as <-.
    rewrite Hl in Hpl. injection Hpl as <-.
    destruct (Num.gtb d (fst st)) eqn:Hgt; injection Hstep as <-.
    + destruct (IH _ _ H H0 Hl) as (Hn & Hm & Hall).
      { simpl. eapply gtb_not_nan; eauto. }
      simpl in Hm. repeat split; auto.
      * destruct (Num.gtb (fst st) (fst st')) eqn:E; auto.
        rewrite (gtb_trans _ _ _ Hgt E) in Hm. discriminate.
      * intros j [<-|Hj]; auto. exists p. split; auto. exists d. auto.
    + destruct (IH _ _ H H0 Hl Hst) as (Hn & Hm & Hall).
      repeat split; auto.
      intros j [<-|Hj]; auto. exists p. split; auto. exists d. split; auto.
      destruct (Num.gtb d (fst st')) eqn:E; auto.
      rewrite (gtb_le _ _ _ E Hm Hst) in Hgt. discriminate.
Qed.

Lemma cerca_le epsilon m p0 pl p :
  cerca m p0 pl p -> Num.gtb m epsilon = false -> Num.xval_of m <> XNaN ->
  cerca epsilon p0 pl p.
Proof.
  intros (d & Hd & Hle) Hm Hn. exists d. split; auto.
  destruct (Num.gtb d epsilon) eqn:E; auto.
  rewrite (gtb_le _ _ _ E Hm Hn) in Hle. discriminate.
Qed.

Lemma ends_inv puntos p0 pl :
  2 <= length puntos -> elem puntos 0 = Ok p0 -> ultimo puntos = Ok pl ->
  exists medio, puntos = p0 :: medio ++ [pl].
Proof.
  intros Hlen H0 Hl. destruct puntos as [|a l]; [simpl in Hlen; lia|].
  unfold elem in H0. simpl in H0. injection H0 as ->.
  destruct (exists_last (l := l)) as (medio & b & ->).
  { destruct l; [simpl in Hlen; lia | discriminate]. }
  exists medio. unfold ultimo, elem in Hl.
  rewrite (nth_error_last _ p0) in Hl by discriminate.
  change (p0 :: medio ++ [b]) with ((p0 :: medio) ++ [b]) in Hl.
  rewrite last_last in Hl. now injection Hl as ->.
Qed.

Lemma scan_cerca puntos dmax imax p0 medio pl epsilon :
  scan puntos = Ok (dmax, imax) -> puntos = p0 :: medio ++ [pl] ->
  Num.gtb dmax epsilon = false ->
  forall p, In p medio -> cerca epsilon p0 pl p.
Proof.
  intros Hscan E Hgt p Hp. unfold scan in Hscan.
  apply (foldM_scan_max _ p0 pl) in Hscan as (Hn & _ & Hall).
  - apply In_nth_error in Hp as (j & Hj).
    assert (Hlt : j < length medio) by (apply nth_error_Some; congruence).
    destruct (Hall (S j)) as (q & Hq & Hc).
    { apply in_seq. subst puntos. simpl. rewrite length_app. simpl. lia. }
    subst puntos. unfold elem in Hq. simpl in Hq.
    rewrite nth_error_app1, Hj in Hq by assumption. injection Hq as <-.
    eapply cerca_le; eauto.
  - now subst puntos.
  - subst puntos. unfold ultimo, elem.
    rewrite (nth_error_last _ p0) by discriminate.
    change (p0 :: medio ++ [pl]) with ((p0 :: medio) ++ [pl]).
    now rewrite last_last.
  - discriminate.
Qed.

Lemma within_refl_short epsilon puntos :
  length puntos <= 2 -> within epsilon puntos puntos.
Proof.
  destruct puntos as [|a [|b [|c l]]]; simpl; intros H; try lia.
  - constructor.
  - constructor.
  - apply (within_chord epsilon a [] b [] []); [intros p []|constructor].
Qed.

Lemma within_app epsilon a b :
  within epsilon a b ->
  forall x l2 r2, a <> [] -> last a x = x ->
  within epsilon (x :: l2) (x :: r2) ->
  within epsilon (a ++ l2) (b ++ r2).
Proof.
  induction 1 as [|p|p0 medio pl resto r Hm Hw IH]; intros x l2 r2 Hne Hx Hr.
  - congruence.
  - simpl in Hx. subst. exact Hr.
  - simpl. rewrite <- app_assoc. simpl.
    apply within_chord; auto.
    apply (IH x); auto; [discriminate|].
    change (p0 :: medio ++ pl :: resto) with ((p0 :: medio) ++ pl :: resto) in Hx.
    now rewrite last_app_r in Hx by discriminate.
Qed.

Lemma within_last epsilon a b :
  within epsilon a b -> forall d, last a d = last b d.
Proof.
  induction 1 as [|p|p0 medio pl resto r Hm Hw IH]; intros d; auto.
  change (p0 :: medio ++ pl :: resto) with ((p0 :: medio) ++ pl :: resto).
  rewrite last_app_r by discriminate.
  change (last (p0 :: pl :: r) d) with (last (pl :: r) d). apply IH.
Qed.

Lemma within_hd epsilon a b :
  within epsilon a b -> hd_error a = hd_error b.
Proof. now destruct 1. Qed.

Lemma firstn_S_last (l : list value) i x :
  nth_error l i = Some x -> firstn (S i) l = firstn i l ++ [x].
Proof.
  revert l; induction i as [|i IH]; intros [|a l] H; simpl in *; try discriminate.
  - now injection H as ->.
  - f_equal. now apply IH.
Qed.

Lemma skipn_nth (l : list value) i x :
  nth_error l i = Some x -> skipn i l = x :: skipn (S i) l.
Proof.
  revert l; induction i as [|i IH]; intros [|a l] H; simpl in *; try discriminate.
  - now injection H as ->.
  - now apply IH.
Qed.

(** X3. Every point the simplifier drops is within the tolerance of the chord
    between the two kept points around it: its distance to that chord, as
    the program computes it with whatever the C library's [pow] returns, is
    computed and is not [> epsilon]. *)
Theorem douglas_peucker_within depth : forall puntos epsilon r,
  _douglas_peucker depth puntos epsilon = Ok r -> within epsilon puntos r.
Proof.
  induction depth as [|depth IH]; intros puntos epsilon r H; [discriminate|].
  rewrite douglas_peucker_S in H.
  destruct (length puntos <=? 2) eqn:Hlen.
  - injection H as <-. apply within_refl_short. now apply Nat.leb_le.
  - apply Nat.leb_gt in Hlen.
    inv_bind H as [dmax imax] Hscan. cbn [fst snd] in H.
    destruct (Num.gtb dmax epsilon) eqn:Hgt.
    + inv_bind H as izquierda Hizq. inv_bind H as derecha Hder.
      injection H as <-.
      assert (Hi : imax < length puntos).
      { apply scan_index in Hscan. lia. }
      destruct (nth_error puntos imax) as [x|] eqn:Hx;
        [|apply nth_error_None in Hx; lia].
      apply IH in Hizq, Hder.
      rewrite (firstn_S_last _ _ _ Hx) in Hizq.
      rewrite (skipn_nth _ _ _ Hx) in Hder.
      assert (Hd : exists r2, derecha = x :: r2).
      { apply within_hd in Hder. destruct derecha as [|y r2]; [discriminate|].
        injection Hder as ->. eauto. }
      destruct Hd as (r2 & ->).
      assert (Hl : exists r1, izquierda = r1 ++ [x]).
      { pose proof (within_last _ _ _ Hizq x) as E. rewrite last_last in E.
        destruct (exists_last (l := izquierda)) as (r1 & y & ->).
        - intros ->. inversion Hizq. now destruct (firstn imax puntos).
        - rewrite last_last in E. subst y. eauto. }
      destruct Hl as (r1 & ->).
      rewrite removelast_last.
      rewrite <- (firstn_skipn imax puntos) at 1.
      rewrite (skipn_nth _ _ _ Hx).
      change (x :: skipn (S imax) puntos) with ([x] ++ skipn (S imax) puntos).
      change (x :: r2) with ([x] ++ r2).
      rewrite !app_assoc.
      apply (within_app epsilon _ _ Hizq x); auto.
      * now destruct (firstn imax puntos).
      * apply last_last.
    + inv_bind H as p0 Hp0. inv_bind H as pl Hpl. injection H as <-.
      destruct (ends_inv puntos p0 pl) as (medio & E); auto; [lia|].
      rewrite E. apply within_chord; [|constructor].
      eapply scan_cerca; eauto.
Qed.

End Tolerance.

Section ToleranceExamples.
Local Open Scope nat_scope.

Lemma douglas_peucker_within_witness :
  within (decimal 1 2) casi_recto cuadrado.
Proof.
  apply (douglas_peucker_within 4 casi_recto (decimal 1 2)).
  vm_compute. reflexivity.
Defined.
End ToleranceExamples.

Section Idempotent.
Context {L : Libm}.
Local Open Scope nat_scope.

Lemma foldM_scan_from puntos p0 pl :
  elem puntos 0 = Ok p0 -> ultimo puntos = Ok pl ->
  forall l k st,
    (forall j, j < length l -> nth_error puntos (k + j) = nth_error l j) ->
    foldM (scan_step puntos) (seq k (length l)) st = scan_from p0 pl l st k.
Proof.
  intros H0 Hl l. induction l as [|p l IH]; intros k st Hn; [reflexivity|].
  simpl. unfold scan_step at 1. unfold elem at 1.
  rewrite <- (Nat.add_0_r k) at 1. rewrite (Hn 0) by (simpl; lia).
  simpl. rewrite H0, Hl. simpl.
  destruct (_punto_distancia_a_linea p p0 pl) as [d|e]; [|reflexivity].
  simpl.
  assert (E : foldM (scan_step puntos) (seq (S k) (length l))
                (if Num.gtb d (fst st) then (d, k) else st) =
              scan_from p0 pl l (if Num.gtb d (fst st) then (d, k) else st) (S k)).
  { apply IH. intros j Hj. specialize (Hn (S j) ltac:(simpl; lia)).
    simpl in Hn. rewrite <- Hn. f_equal. lia. }
  destruct (Num.gtb d (fst st)); exact E.
Qed.

Lemma scan_scan_from p0 medio pl :
  scan (p0 :: medio ++ [pl]) = scan_from p0 pl medio (PyInt 0, 0) 1.
Proof.
  unfold scan.
  replace (length (p0 :: medio ++ [pl]) - 2) with (length medio)
    by (simpl; rewrite length_app; simpl; lia).
  apply foldM_scan_from.
  - reflexivity.
  - unfold ultimo, elem.
    rewrite (nth_error_last _ p0) by discriminate.
    change (p0 :: medio ++ [pl]) with ((p0 :: medio) ++ [pl]).
    now rewrite last_last.
  - intros j Hj. simpl. now rewrite nth_error_app1.
Qed.

Lemma scan_from_app p0 pl a : forall c st k,
  scan_from p0 pl (a ++ c) st k =
  (sta <- scan_from p0 pl a st k ;; scan_from p0 pl c sta (k + length a)).
Proof.
  induction a as [|p a IH]; intros c st k; simpl.
  - now rewrite Nat.add_0_r.
  - destruct (_punto_distancia_a_linea p p0 pl) as [d|e]; [|reflexivity].
    simpl. rewrite IH. now rewrite Nat.add_succ_r.
Qed.

(** The recorded index is the one the loop started with, or one it
    visited. *)
Lemma scan_from_index p0 pl l : forall st k st',
  scan_from p0 pl l st k = Ok st' ->
  st' = st \/ k <= snd st' < k + length l.
Proof.
  induction l as [|p l IH]; simpl; intros st k st' H.
  - injection H as <-. now left.
  - inv_bind H as d Hd. apply IH in H.
    destruct (Num.gtb d (fst st)).
    + destruct H as [->|H]; right; simpl; lia.
    + destruct H as [->|H]; [now left | right; lia].
Qed.

Lemma scan_from_max p0 pl l : forall st k st',
  scan_from p0 pl l st k = Ok st' ->
  Num.xval_of (fst st) <> XNaN ->
  Num.xval_of (fst st') <> XNaN /\
  Num.gtb (fst st) (fst st') = false /\
  forall p, In p l -> cerca (fst st') p0 pl p.
Proof.
  induction l as [|p l IH]; simpl; intros st k st' H Hst.
  - injection H as <-. repeat split; auto using gtb_irrefl. tauto.
  - inv_bind H as d Hd.
    destruct (Num.gtb d (fst st)) eqn:Hgt.
    + destruct (IH _ _ _ H) as (Hn & Hm & Hall).
      { simpl. eapply gtb_not_nan; eauto. }
      simpl in Hm. repeat split; auto.
      * destruct (Num.gtb (fst st) (fst st')) eqn:E; auto.
        rewrite (gtb_trans _ _ _ Hgt E) in Hm. discriminate.
      * intros q [<-|Hq]; auto. exists d. auto.
    + destruct (IH _ _ _ H Hst) as (Hn & Hm & Hall).
      repeat split; auto.
      intros q [<-|Hq]; auto. exists d. split; auto.
      destruct (Num.gtb d (fst st')) eqn:E; auto.
      rewrite (gtb_le _ _ _ E Hm Hst) in Hgt. discriminate.
Qed.

(** Points that are not beyond the running maximum leave the state alone. *)
Lemma scan_from_keep p0 pl l : forall st k,
  (forall p, In p l -> cerca (fst st) p0 pl p) ->
  scan_from p0 pl l st k = Ok st.
Proof.
  induction l as [|p l IH]; simpl; intros st k H; [reflexivity|].
  destruct (H p (or_introl eq_refl)) as (d & -> & Hd). simpl. rewrite Hd.
  apply IH. intros q Hq. apply H. now right.
Qed.

(** Points strictly below [dx] leave a running maximum below [dx]. *)
Lemma scan_from_below p0 pl dx m l : forall st k,
  Num.gtb dx m = true ->
  (forall p, In p l -> cerca m p0 pl p) ->
  Num.gtb dx (fst st) = true ->
  exists st', scan_from p0 pl l st k = Ok st' /\
              Num.gtb dx (fst st') = true /\
              (st' = st \/ k <= snd st' < k + length l).
Proof.
  intros st k Hm Hl; revert st k.
  induction l as [|p l IH]; simpl; intros st k Hst.
  - exists st. auto.
  - destruct (Hl p (or_introl eq_refl)) as (d & -> & Hd). simpl.
    destruct (Num.gtb d (fst st)) eqn:Hgt.
    + destruct (IH (fun q Hq => Hl q (or_intror Hq)) (d, k) (S k))
        as (st' & E & Hlt & Hi).
      { simpl. apply (gtb_le dx d m Hm Hd). apply (gtb_not_nan d (fst st) Hgt). }
      exists st'. repeat split; auto.
      destruct Hi as [->|Hi]; right; simpl; lia.
    + destruct (IH (fun q Hq => Hl q (or_intror Hq)) st (S k) Hst)
        as (st' & E & Hlt & Hi).
      exists st'. repeat split; auto.
      destruct Hi as [->|Hi]; [now left | right; lia].
Qed.

(** The scan that stopped at [x], seen from both sides of [x]. *)
Lemma scan_from_split p0 pl a x b dmax st k :
  scan_from p0 pl (a ++ x :: b) st k = Ok (dmax, k + length a) ->
  snd st < k -> Num.xval_of (fst st) <> XNaN ->
  exists m,
    Num.gtb (fst st) m = false /\ Num.xval_of m <> XNaN /\
    (forall p, In p a -> cerca m p0 pl p) /\
    _punto_distancia_a_linea x p0 pl = Ok dmax /\
    Num.gtb dmax m = true /\
    (forall p, In p b -> cerca dmax p0 pl p).
Proof.
  intros H Hst Hn. rewrite scan_from_app in H.
  inv_bind H as sta Ha. simpl in H. inv_bind H as d Hd.
  destruct (scan_from_max _ _ _ _ _ _ Ha Hn) as (Hna & Hma & Halla).
  pose proof (scan_from_index _ _ _ _ _ _ Ha) as Hia.
  pose proof (scan_from_index _ _ _ _ _ _ H) as Hib.
  destruct (Num.gtb d (fst sta)) eqn:Hgt.
  - destruct Hib as [[= -> ]|Hib]; [|simpl in Hib; lia].
    exists (fst sta). repeat split; auto.
    apply (scan_from_max _ _ _ _ _ _ H). simpl. eapply gtb_not_nan; eauto.
  - exfalso. destruct Hib as [E|Hib]; [|simpl in Hib; lia].
    rewrite <- E in Hia. simpl in Hia.
    destruct Hia as [E'|Hia]; [|lia].
    rewrite <- E' in Hst. simpl in Hst. lia.
Qed.

Lemma scan_from_join p0 pl a x b dmax m st k :
  (forall p, In p a -> cerca m p0 pl p) ->
  _punto_distancia_a_linea x p0 pl = Ok dmax ->
  Num.gtb dmax m = true ->
  Num.gtb dmax (fst st) = true ->
  (forall p, In p b -> cerca dmax p0 pl p) ->
  scan_from p0 pl (a ++ x :: b) st k = Ok (dmax, k + length a).
Proof.
  intros Ha Hx Hm Hst Hb. rewrite scan_from_app.
  destruct (scan_from_below p0 pl dmax m a st k Hm Ha Hst) as (sta & -> & Hlt & _).
  simpl. rewrite Hx. simpl. rewrite Hlt.
  now apply scan_from_keep.
Qed.

Lemma subsequence_In {A : Type} (s l : list A) x :
  subsequence s l -> In x s -> In x l.
Proof.
  induction 1; simpl; intros Hx; auto.
  destruct Hx; auto.
Qed.

(** A simplified list, cut at its two ends. *)
Lemma simplified_middle r p0 medio pl :
  simplified r (p0 :: medio ++ [pl]) ->
  exists medio', r = p0 :: medio' ++ [pl] /\
                 forall p, In p medio' -> In p medio.
Proof.
  intros (Hs & Hh & Hl & Hn).
  destruct r as [|a r]; [discriminate|]. simpl in Hh. injection Hh as ->.
  specialize (Hn ltac:(simpl; rewrite length_app; simpl; lia)).
  destruct (exists_last (l := r)) as (medio' & b & ->).
  { destruct r; [simpl in Hn; lia | discriminate]. }
  specialize (Hl p0).
  change (p0 :: medio' ++ [b]) with ((p0 :: medio') ++ [b]) in Hl.
  change (p0 :: medio ++ [pl]) with ((p0 :: medio) ++ [pl]) in Hl.
  rewrite !last_last in Hl. subst b.
  exists medio'. split; auto.
  assert (Hs' : subsequence (medio' ++ [pl]) (medio ++ [pl])).
  { inversion Hs; subst; auto. eapply subsequence_cons_inv; eauto. }
  apply subsequence_removelast in Hs'. rewrite !removelast_last in Hs'.
  intros p. now apply subsequence_In.
Qed.

Lemma split_at (l : list value) i x :
  nth_error l i = Some x ->
  l = firstn i l ++ x :: skipn (S i) l /\ length (firstn i l) = i.
Proof.
  intros H. split.
  - rewrite <- (firstn_skipn i l) at 1. now rewrite (skipn_nth _ _ _ H).
  - apply firstn_length_le. apply Nat.lt_le_incl. apply nth_error_Some. congruence.
Qed.

Lemma firstn_cut (p0 : value) a x b pl :
  firstn (S (S (length a))) (p0 :: (a ++ x :: b) ++ [pl]) = p0 :: a ++ [x].
Proof.
  change (firstn (S (S (length a))) (p0 :: (a ++ x :: b) ++ [pl]))
    with (p0 :: firstn (S (length a)) ((a ++ x :: b) ++ [pl])).
  f_equal. induction a as [|y a IH]; [reflexivity|].
  simpl length. simpl app. rewrite firstn_cons. now f_equal.
Qed.

Lemma skipn_cut (p0 : value) a x b pl :
  skipn (S (length a)) (p0 :: (a ++ x :: b) ++ [pl]) = x :: b ++ [pl].
Proof.
  change (skipn (S (length a)) (p0 :: (a ++ x :: b) ++ [pl]))
    with (skipn (length a) ((a ++ x :: b) ++ [pl])).
  induction a as [|y a IH]; [reflexivity|]. exact IH.
Qed.

(** A returned list is a fixed point: the scan of it stops at the same
    point, and both halves are returned lists themselves. *)
Lemma douglas_peucker_fixed depth : forall puntos epsilon r,
  _douglas_peucker depth puntos epsilon = Ok r ->
  _douglas_peucker depth r epsilon = Ok r.
Proof.
  induction depth as [|depth IH]; intros puntos epsilon r H; [discriminate|].
  pose proof H as Hdp.
  rewrite douglas_peucker_S in H.
  destruct (length puntos <=? 2) eqn:Hlen.
  - injection H as <-. exact Hdp.
  - apply Nat.leb_gt in Hlen.
    inv_bind H as [dmax imax] Hscan. cbn [fst snd] in H.
    destruct (Num.gtb dmax epsilon) eqn:Hgt.
    + inv_bind H as izquierda Hizq. inv_bind H as derecha Hder.
      injection H as <-.
      pose proof (IH _ _ _ Hizq) as Hizq'.
      pose proof (IH _ _ _ Hder) as Hder'.
      pose proof (scan_index _ _ _ Hscan) as [[-> ->]|Hi].
      * (* the split at index 0 hands the whole list to the right *)
        apply douglas_peucker_simplified in Hizq.
        destruct Hizq as (Hs & _).
        apply subsequence_length in Hs. rewrite length_firstn in Hs.
        assert (E : removelast izquierda = []).
        { destruct izquierda as [|a [|b l]]; auto. simpl length in Hs. lia. }
        rewrite E. simpl. now apply douglas_peucker_deeper.
      * destruct (nth_error puntos 0) as [p0|] eqn:H0;
          [|apply nth_error_None in H0; lia].
        destruct (ends_inv puntos p0 (last puntos p0)) as (medio & E);
          [lia | unfold elem; now rewrite H0 | |].
        { unfold ultimo, elem. rewrite (nth_error_last _ p0); auto.
          intros ->. simpl in Hlen. lia. }
        set (pl := last puntos p0) in *. clearbody pl. subst puntos.
        rewrite scan_scan_from in Hscan.
        destruct imax as [|i]; [lia|].
        assert (Hlm : i < length medio).
        { simpl in Hi. rewrite length_app in Hi. simpl in Hi. lia. }
        destruct (nth_error medio i) as [x|] eqn:Hx;
          [|apply nth_error_None in Hx; lia].
        destruct (split_at _ _ _ Hx) as (Em & Ela).
        set (a := firstn i medio) in *. set (b := skipn (S i) medio) in *.
        clearbody a b. subst medio i.
        destruct (scan_from_split p0 pl a x b dmax (PyInt 0, 0) 1 Hscan)
          as (m & H0m & Hm & Ha & Hdx & Hgm & Hb); [simpl; lia | discriminate |].
        simpl in H0m.
        rewrite firstn_cut in Hizq. rewrite skipn_cut in Hder.
        apply douglas_peucker_simplified in Hizq, Hder.
        apply simplified_middle in Hizq as (a' & -> & Ha').
        apply simplified_middle in Hder as (b' & -> & Hb').
        change (p0 :: a' ++ [x]) with ((p0 :: a') ++ [x]).
        rewrite removelast_last.
        replace ((p0 :: a') ++ x :: b' ++ [pl])
          with (p0 :: (a' ++ x :: b') ++ [pl])
          by (simpl; now rewrite <- app_assoc).
        rewrite douglas_peucker_S.
        replace (length (p0 :: (a' ++ x :: b') ++ [pl]) <=? 2) with false.
        2:{ symmetry. apply Nat.leb_gt. simpl. rewrite !length_app. simpl. lia. }
        rewrite scan_scan_from.
        rewrite (scan_from_join p0 pl a' x b' dmax m (PyInt 0, 0) 1); auto.
        2:{ apply (gtb_le dmax (PyInt 0) m Hgm H0m). discriminate. }
        cbn [bind fst snd]. rewrite Hgt.
        change (1 + length a') with (S (length a')).
        rewrite firstn_cut, skipn_cut, Hizq', Hder'.
        cbn [bind].
        change (p0 :: a' ++ [x]) with ((p0 :: a') ++ [x]).
        rewrite removelast_last. simpl. now rewrite <- app_assoc.
    + inv_bind H as p0 Hp0. inv_bind H as pl Hpl. injection H as <-.
      now apply douglas_peucker_short.
Qed.

(** X4. Simplifying a returned list again, at the same tolerance and under a
    recursion limit that is no smaller, returns it unchanged. *)
Theorem douglas_peucker_idempotent depth depth' puntos epsilon r :
  _douglas_peucker depth puntos epsilon = Ok r -> depth <= depth' ->
  _douglas_peucker depth' r epsilon = Ok r.
Proof.
  intros H. apply douglas_peucker_fixed in H.
  induction 1 as [|d Hd IH]; [assumption|].
  now apply douglas_peucker_deeper.
Qed.

End Idempotent.

Section IdempotentExamples.
Local Open Scope nat_scope.

Lemma douglas_peucker_idempotent_witness :
  _douglas_peucker 9 cuadrado (decimal 1 2) = Ok cuadrado.
Proof.
  apply (douglas_peucker_idempotent 4 9 casi_recto (decimal 1 2) cuadrado).
  - vm_compute. reflexivity.
  - lia.
Defined.
End IdempotentExamples.

Section Reapply.
Context {L : Libm}.
Local Open Scope nat_scope.

Lemma simplificar_anillo_fixed depth anillo epsilon r :
  _simplificar_anillo depth anillo epsilon = Ok r ->
  _simplificar_anillo depth r epsilon = Ok r.
Proof.
  intros H.
  destruct (simplificar_anillo_cases _ _ _ _ H) as (s & Hs & [[_ ->]|[Hl ->]]);
    [assumption|].
  unfold _simplificar_anillo. rewrite (douglas_peucker_fixed _ _ _ _ Hs).
  cbn [bind]. apply Nat.ltb_ge in Hl. now rewrite Hl.
Qed.

Lemma mapM_fixed {A B : Type} (R : A -> B -> Prop) (f : B -> result B) l rs :
  Forall2 R l rs -> (forall a r, R a r -> f r = Ok r) -> mapM f rs = Ok rs.
Proof.
  intros F H. apply mapM_Forall2.
  induction F as [|a r l rs Har F IH]; constructor; eauto.
Qed.

Lemma simplificar_anillos_fixed depth poligono epsilon v :
  simplificar_anillos depth poligono epsilon = Ok v ->
  simplificar_anillos depth v epsilon = Ok v.
Proof.
  intros H. apply simplificar_anillos_Forall2 in H as (anillos & rs & -> & -> & F).
  unfold simplificar_anillos. cbn [as_list bind].
  erewrite mapM_fixed; [reflexivity | exact F |].
  intros a r (pts & pts' & -> & -> & Hr). cbn [as_list bind].
  now rewrite (simplificar_anillo_fixed _ _ _ _ Hr).
Qed.

(** X8. The transformer applied to its own result, at the same tolerance,
    returns it unchanged: each ring is already its own normalization. *)
Theorem simplificar_geometria_idempotent depth geom epsilon geom' :
  _simplificar_geometria depth geom epsilon = Ok geom' ->
  _simplificar_geometria depth geom' epsilon = Ok geom'.
Proof.
  intros H. pose proof H as H'. unfold _simplificar_geometria in H.
  inv_bind H as tipo Ht. inv_bind H as coords Hc.
  destruct (g_type geom) as [t|] eqn:Et; [|discriminate].
  destruct (g_coordinates geom) as [c|] eqn:Ec; [|discriminate].
  injection Ht as <-. injection Hc as <-.
  unfold _simplificar_geometria.
  destruct (String.eqb t "Polygon") eqn:Ep.
  - inv_bind H as nuevos Hn. injection H as <-. cbn [g_type g_coordinates lookup bind].
    rewrite Ep. now rewrite (simplificar_anillos_fixed _ _ _ _ Hn).
  - destruct (String.eqb t "MultiPolygon") eqn:Em.
    + inv_bind H as poligonos Hl. inv_bind H as nuevos Hn. injection H as <-.
      cbn [g_type g_coordinates lookup bind]. rewrite Ep, Em.
      cbn [as_list bind].
      apply mapM_Forall2 in Hn.
      erewrite mapM_fixed; [reflexivity | exact Hn |].
      intros a r Hr. cbn beta in Hr. now apply simplificar_anillos_fixed in Hr.
    + injection H as <-. exact H'.
Qed.

End Reapply.

Section ReapplyExamples.
Local Open Scope nat_scope.

Lemma simplificar_geometria_idempotent_witness :
  _simplificar_geometria 7
    (Geometry (Some "Polygon"%string) (Some (VList [VList cuadrado])))
    (decimal 1 2)
  = Ok (Geometry (Some "Polygon"%string) (Some (VList [VList cuadrado]))).
Proof.
  apply (simplificar_geometria_idempotent 7
           (Geometry (Some "Polygon"%string) (Some (VList [VList casi_recto])))).
  vm_compute. reflexivity.
Defined.
End ReapplyExamples.

Section Reentry.
Context {L : Libm}.
Context {V : Type}.

(** X12. The collection that comes back is never accepted as input again: its
    features carry ["c"] and ["n"] only, so reading ["DPTOMPIO"] raises,
    unless the first feature's geometry raised before. *)
Theorem simplificar_geojson_not_reentrant depth (features : list (feature V)) res :
  simplificar_geojson depth features = Ok res ->
  forall depth', exists e,
    simplificar_geojson depth' (r_features res) = Raise e.
Proof.
  intros H depth'.
  apply simplificar_geojson_inv in H as (Ha & Hm & _ & Hz).
  apply mapM_Forall2 in Hm.
  destruct Hm as [|feat feat' l l' Hf F].
  { simpl in Ha. injection Ha as E. congruence. }
  apply procesar_feature_inv in Hf
    as (g & g1 & c1 & rc & props & c & n & _ & _ & _ & _ & _ & _ & _ & E).
  clear Ha. unfold simplificar_geojson.
  destruct (contar_features (feat' :: l')) as [antes|e]; [|eexists; reflexivity].
  cbn [bind mapM]. unfold procesar_feature at 1. subst feat'.
  cbn [f_geometry lookup bind].
  destruct (_simplificar_geometria _ _ _) as [g2|e]; [|eexists; reflexivity]. cbn [bind].
  destruct (lookup (g_coordinates g2)) as [c2|e]; [|eexists; reflexivity]. cbn [bind].
  destruct (_redondear_coordenadas c2 PRECISION) as [rc2|e]; [|eexists; reflexivity].
  cbn [bind f_properties lookup]. eexists; reflexivity.
Qed.
End Reentry.

Lemma simplificar_geojson_not_reentrant_witness :
  exists e, simplificar_geojson 3 (r_features resumen_muestra) = Raise e.
Proof.
  apply (simplificar_geojson_not_reentrant 8 muestra resumen_muestra).
  vm_compute. reflexivity.
Defined.

(** * Coordinates of the processed collection *)

Section Rounded.
Context {L : Libm}.
Local Open Scope nat_scope.

Lemma valid_anillo depth pts epsilon r :
  _simplificar_anillo depth pts epsilon = Ok r ->
  valid_value (VList pts) -> valid_value (VList r).
Proof.
  intros H Hv.
  apply simplificar_anillo_cases in H as (s & Hs & [[_ ->]|[_ ->]]); [assumption|].
  apply douglas_peucker_simplified in Hs as (Hs & _).
  inversion Hv as [|? Hl]; subst. constructor.
  rewrite Forall_forall in *. intros x Hx. apply Hl.
  eapply subsequence_In; eauto.
Qed.

Lemma valid_anillos depth poligono epsilon v :
  simplificar_anillos depth poligono epsilon = Ok v ->
  valid_value poligono -> valid_value v.
Proof.
  intros H Hv.
  apply simplificar_anillos_Forall2 in H as (anillos & rs & -> & -> & F).
  inversion Hv as [|? Hl]; subst. constructor. clear Hv.
  induction F as [|a r l rs (pts & pts' & -> & -> & Hr) F IH];
    [constructor|].
  inversion Hl as [|? ? Ha Hl']; subst.
  constructor; [eapply valid_anillo; eauto | auto].
Qed.

Lemma valid_geometria depth geom epsilon geom' coords :
  _simplificar_geometria depth geom epsilon = Ok geom' ->
  g_coordinates geom = Some coords -> valid_value coords ->
  exists coords', g_coordinates geom' = Some coords' /\ valid_value coords'.
Proof.
  unfold _simplificar_geometria. intros H Hc Hv. rewrite Hc in H.
  inv_bind H as tipo Ht. cbn [lookup bind] in H.
  destruct (String.eqb tipo "Polygon").
  - inv_bind H as nuevos Hn. injection H as <-. cbn [g_coordinates].
    eexists; split; [reflexivity|]. eapply valid_anillos; eauto.
  - destruct (String.eqb tipo "MultiPolygon").
    + inv_bind H as poligonos Hl. inv_bind H as nuevos F. injection H as <-.
      destruct coords as [|l0]; [discriminate|]. injection Hl as ->.
      cbn [g_coordinates]. eexists; split; [reflexivity|].
      apply mapM_Forall2 in F.
      inversion Hv as [|? Hl]; subst. constructor. clear Hv Hc.
      induction F as [|a r l rs Hr F IH]; [constructor|].
      inversion Hl as [|? ? Ha Hl']; subst.
      constructor; [eapply valid_anillos; eauto | auto].
    + injection H as <-. eauto.
Qed.

Context {V : Type}.

(** X13. When every float of the input coordinates is a binary64, every feature
    that comes back holds coordinates already rounded to [PRECISION]
    decimals: the quantizer maps them to themselves. *)
Theorem simplificar_geojson_rounded depth (features : list (feature V)) res :
  simplificar_geojson depth features = Ok res ->
  Forall (fun feat => forall geom coords,
            f_geometry feat = Some geom -> g_coordinates geom = Some coords ->
            valid_value coords) features ->
  Forall (fun feat' => exists geom coords,
            f_geometry feat' = Some geom /\ g_coordinates geom = Some coords /\
            _redondear_coordenadas coords PRECISION = Ok coords)
         (r_features res).
Proof.
  intros H Hv. apply simplificar_geojson_inv in H as (_ & H & _).
  apply mapM_Forall2 in H.
  induction H as [|feat feat' l l' Hf F IH]; constructor;
    inversion Hv as [|? ? Hv1 Hv2]; subst; auto.
  apply procesar_feature_inv in Hf
    as (g & g1 & c1 & rc & props & c & n & Eg & Hs & Ec1 & Hr & _ & _ & _ & ->).
  destruct (g_coordinates g) as [c0|] eqn:Ec0.
  - destruct (valid_geometria _ _ _ _ _ Hs Ec0 (Hv1 _ _ Eg Ec0)) as (c1' & E & Hv').
    rewrite Ec1 in E. injection E as <-.
    exists (Geometry (g_type g1) (Some rc)), rc. repeat split.
    apply quantized_redondear. apply redondear_quantized in Hr.
    apply (quantized_stable PRECISION c1); auto. unfold PRECISION. lia.
  - unfold _simplificar_geometria in Hs. rewrite Ec0 in Hs.
    destruct (lookup (g_type g)); discriminate.
Qed.
End Rounded.

Lemma simplificar_geojson_rounded_witness :
  Forall (fun feat' => exists geom coords,
            f_geometry feat' = Some geom /\ g_coordinates geom = Some coords /\
            _redondear_coordenadas coords PRECISION = Ok coords)
         (r_features resumen_muestra).
Proof.
  apply (simplificar_geojson_rounded 8 muestra resumen_muestra).
  - vm_compute. reflexivity.
  - constructor; [|constructor].
    intros geom coords [= <-] [= <-].
    repeat (constructor; try (vm_compute; reflexivity)).
Defined.

Section RingCount.
Local Open Scope nat_scope.

Lemma contar_ring pts :
  pts <> [] -> Forall is_point pts ->
  _contar_coordenadas (VList pts) = Ok (length pts).
Proof.
  intros Hne H.
  assert (S : sumM _contar_coordenadas pts = Ok (length pts)).
  { clear Hne. induction H as [|p l (x & y & rest & ->) Hl IH]; [reflexivity|].
    cbn [sumM]. rewrite contar_leaf. cbn [bind]. rewrite IH. reflexivity. }
  destruct H as [|p l (x & y & rest & ->) Hl]; [congruence|].
  now rewrite contar_node.
Qed.

(** X14. A polygon counts the points of its rings: the sum of their lengths,
    when no ring is empty and every element of a ring is a point. *)
Theorem contar_poligono (anillos : list (list value)) :
  anillos <> [] ->
  Forall (fun pts => pts <> [] /\ Forall is_point pts) anillos ->
  _contar_coordenadas (VList (map VList anillos))
  = Ok (list_sum (map (@length value) anillos)).
Proof.
  intros Hne H.
  assert (S : sumM _contar_coordenadas (map VList anillos)
              = Ok (list_sum (map (@length value) anillos))).
  { clear Hne. induction H as [|pts l (Hp & Hl) H IH]; [reflexivity|].
    cbn [map sumM list_sum]. rewrite (contar_ring pts Hp Hl). cbn [bind].
    rewrite IH. reflexivity. }
  destruct anillos as [|pts l]; [congruence|].
  cbn [map]. rewrite contar_node. exact S.
Qed.

Lemma contar_poligono_witness :
  _contar_coordenadas (VList (map VList [cuadrado; triangulo]))
  = Ok (list_sum (map (@length value) [cuadrado; triangulo])).
Proof.
  apply (contar_poligono [cuadrado; triangulo]).
  - discriminate.
  - repeat (constructor || discriminate || (do 3 eexists; reflexivity)).
Defined.
End RingCount.

(** * The reduction reported *)

Section Percentage.
Context {L : Libm}.
Local Open Scope Z_scope.

Lemma round_aux_sin_signo m e l :
  sin_signo (binary_round_aux prec emax false m e l).
Proof.
  unfold binary_round_aux.
  destruct (shr_fexp prec emax m e l) as [mrs e'].
  destruct (shr_fexp prec emax _ e' loc_Exact) as [mrs' e''].
  destruct (shr_m mrs') as [|q|q]; try exact I.
  destruct (e'' <=? emax - prec); exact I.
Qed.

Lemma normalize_sin_signo m e :
  0 <= m -> sin_signo (binary_normalize prec emax m e false).
Proof.
  intros Hm. destruct m as [|m|m]; [exact I| |lia].
  unfold binary_normalize, binary_round.
  destruct (shl_align _ _ _) as [mz ez]. apply round_aux_sin_signo.
Qed.

Lemma iter_xO m n : Zpos (Pos.iter xO m n) = Zpos m * 2 ^ Zpos n.
Proof.
  induction n as [|n IH] using Pos.peano_ind.
  - simpl. lia.
  - rewrite Pos.iter_succ, Pos2Z.inj_succ, Z.pow_succ_r by lia.
    rewrite Pos2Z.inj_xO, IH. ring.
Qed.

Lemma shl_align_spec m e e' :
  e' <= e -> Zpos (fst (shl_align m e e')) = Zpos m * 2 ^ (e - e').
Proof.
  intros H. unfold shl_align.
  destruct (e' - e) as [|d|d] eqn:E; try lia.
  - replace (e - e') with 0 by lia. simpl. lia.
  - simpl fst. rewrite iter_xO. f_equal. f_equal. lia.
Qed.

(** The quotient of two counts, the first no larger than the second, is at
    most one. *)
Lemma rnd_le_one d a :
  0 <= d <= a -> 0 < a ->
  let '(m, sh) := rnd a (d * W) in 0 <= m /\ 0 <= sh /\ m * 2 ^ sh <= W.
Proof.
  intros Hd Ha. unfold rnd.
  pose proof W_pos as HW.
  assert (Hu : 0 <= d * W) by nia.
  destruct (shift_step a Ha (d * W) Hu) as (S0 & Slt & Sge).
  destruct (mant_bounds a Ha (d * W) Hu) as ((M0 & M1) & Mge).
  set (sh := shift (d * W) a) in *. set (m := mant a (d * W)) in *.
  assert (Hsh : sh <= 1022).
  { destruct (Z_le_gt_dec sh 1022) as [|Hgt]; [assumption|exfalso].
    assert (Hs : 0 < sh) by lia. specialize (Sge Hs). unfold step in Sge.
    assert (2 * 2 ^ 1022 <= 2 ^ sh) by (apply pow2_double_le; lia).
    assert (E : W = 2 ^ 52 * 2 ^ 1022) by reflexivity.
    assert (0 < 2 ^ 52) by (apply pow2_pos; lia).
    assert (0 < 2 ^ 1022) by (apply pow2_pos; lia).
    nia. }
  assert (Hm : m * 2 ^ sh <= W).
  { assert (Ew : W = 2 ^ (1074 - sh) * 2 ^ sh).
    { rewrite <- Z.pow_add_r by lia. now replace (1074 - sh + sh) with 1074 by lia. }
    pose proof (step_pos a Ha sh S0) as Gp.
    assert (Hle : m <= 2 ^ (1074 - sh)).
    { rewrite <- (div_near_exact (2 ^ (1074 - sh)) _ Gp).
      apply div_near_mono; auto. unfold step. rewrite Ew.
      assert (0 < 2 ^ (1074 - sh)) by (apply pow2_pos; lia).
      assert (0 < 2 ^ sh) by (apply pow2_pos; lia).
      nia. }
    rewrite Ew. assert (0 < 2 ^ sh) by (apply pow2_pos; lia). nia. }
  unfold renorm. change (2 ^ prec) with (2 ^ 53). change (2 ^ (prec - 1)) with (2 ^ 52).
  destruct (Z.eqb_spec m (2 ^ 53)) as [E|E].
  - repeat split; try lia.
    rewrite Z.pow_add_r by lia. rewrite E in Hm.
    change (2 ^ 53) with (2 ^ 52 * 2) in Hm. change (2 ^ 1) with 2. lia.
  - repeat split; lia.
Qed.

Lemma ratio_le_one d a f :
  0 <= d <= a -> 0 < a -> float_of_ratio false d a = f ->
  f = S754_infinity false \/ f = S754_zero false \/
  exists m e, f = S754_finite false m e /\ emin <= e /\
              Zpos m * 2 ^ (e - emin) <= W.
Proof.
  intros Hd Ha <-. rewrite float_of_ratio_rnd.
  pose proof (rnd_le_one d a Hd Ha) as H.
  destruct (rnd a (d * W)) as [m sh]. destruct H as (Hm & Hs & Hle).
  destruct m as [|m|m]; [now right; left | | lia].
  destruct (sh + emin <=? etop); [|now left].
  right. right. exists m, (sh + emin). repeat split; [lia|].
  now replace (sh + emin - emin) with sh by lia.
Qed.

Lemma one_minus_sin_signo q :
  (q = S754_zero false \/
   exists m e, q = S754_finite false m e /\ emin <= e /\
               Zpos m * 2 ^ (e - emin) <= W) ->
  sin_signo (SFsub prec emax (S754_finite false 4503599627370496 (-52)) q).
Proof.
  intros [->|(m & e & -> & He & Hle)]; [exact I|].
  unfold SFsub. cbv zeta. apply normalize_sin_signo.
  cbn [cond_Zopp].
  rewrite !shl_align_spec by lia.
  set (ez := Z.min (-52) e).
  assert (Hez : emin <= ez) by (unfold ez, emin, emax, prec in *; lia).
  assert (Hk : 0 < 2 ^ (ez - emin)) by (apply pow2_pos; lia).
  assert (E1 : 2 ^ (e - emin) = 2 ^ (e - ez) * 2 ^ (ez - emin)).
  { rewrite <- Z.pow_add_r by (unfold ez; lia). f_equal. lia. }
  assert (E2 : W = 4503599627370496 * 2 ^ (-52 - ez) * 2 ^ (ez - emin)).
  { change 4503599627370496 with (2 ^ 52). unfold W.
    rewrite <- !Z.pow_add_r by (unfold ez, emin, emax, prec in *; lia).
    f_equal. unfold emin, emax, prec. lia. }
  rewrite E1, E2 in Hle.
  assert (0 < 2 ^ (e - ez)) by (apply pow2_pos; unfold ez; lia).
  nia.
Qed.

Lemma mul_sin_signo r mc ec :
  sin_signo r ->
  Num.ltb (PyFloat (SFmul prec emax r (S754_finite false mc ec))) (PyInt 0) = false.
Proof.
  destruct r as [s|[]| |[] m e]; intros H; try contradiction;
    unfold SFmul; cbn [xorb]; try reflexivity.
  apply round_aux_not_negative.
Qed.

Lemma float_of_int_1 :
  float_of_int 1 = Ok (S754_finite false 4503599627370496 (-52)).
Proof. vm_compute. reflexivity. Qed.

Lemma float_of_int_100 :
  float_of_int 100 = Ok (S754_finite false 7036874417766400 (-46)).
Proof. vm_compute. reflexivity. Qed.

Context {V : Type}.

(** X15. The reduction percentage reported is never below zero: the quotient of
    the two counts is at most one, so one minus it has no sign, and neither
    has the product with 100. *)
Theorem simplificar_geojson_reduccion depth (features : list (feature V)) res :
  simplificar_geojson depth features = Ok res ->
  Num.ltb (reduccion res) (PyInt 0) = false.
Proof.
  unfold simplificar_geojson. intros H.
  inv_bind H as antes Ha. inv_bind H as procesados Hp. inv_bind H as despues Hd.
  inv_bind H as q Hq. inv_bind H as r Hr. inv_bind H as red Hred.
  injection H as <-. cbn [reduccion].
  apply mapM_Forall2 in Hp.
  destruct (contar_features_procesados _ _ _ Hp _ Ha) as (d & Hd' & Hle).
  rewrite Hd in Hd'. injection Hd' as <-.
  unfold Num.div in Hq.
  destruct (Z.eqb_spec (Z.of_nat antes) 0) as [|Hz]; [discriminate|].
  replace (Z.of_nat despues <? 0) with false in Hq by (symmetry; apply Z.ltb_ge; lia).
  replace (Z.of_nat antes <? 0) with false in Hq by (symmetry; apply Z.ltb_ge; lia).
  rewrite !Z.abs_eq in Hq by lia. cbn [xorb] in Hq.
  assert (B1 : 0 <= Z.of_nat despues <= Z.of_nat antes) by lia.
  assert (B2 : 0 < Z.of_nat antes) by lia.
  pose proof (ratio_le_one _ _ _ B1 B2 eq_refl) as Hf.
  set (f := float_of_ratio false (Z.of_nat despues) (Z.of_nat antes)) in *.
  clearbody f.
  assert (Hq' : q = PyFloat f /\ f <> S754_infinity false).
  { destruct f as [s|s| |s m e]; cbn [is_inf] in Hq;
      try discriminate Hq; injection Hq as <-; split; auto; discriminate. }
  destruct Hq' as (-> & Hinf). clear Hq.
  destruct Hf as [Hf|Hf]; [contradiction|].
  unfold Num.sub, Num.arith in Hr. cbn [to_float] in Hr.
  rewrite float_of_int_1 in Hr. cbn [bind] in Hr. injection Hr as <-.
  unfold Num.mul, Num.arith in Hred. cbn [to_float] in Hred.
  rewrite float_of_int_100 in Hred. cbn [bind] in Hred. injection Hred as <-.
  apply mul_sin_signo, one_minus_sin_signo. assumption.
Qed.
End Percentage.

Lemma simplificar_geojson_reduccion_witness :
  Num.ltb (reduccion resumen_muestra) (PyInt 0) = false.
Proof.
  apply (simplificar_geojson_reduccion 8 muestra resumen_muestra).
  vm_compute. reflexivity.
Defined.

(** * When the simplifier keeps only the ends *)

Section TwoPoints.
Context {L : Libm}.
Local Open Scope nat_scope.

(** X16. A run of three or more points comes back as its two ends exactly when
    no interior point is farther than the tolerance from the chord between
    them, the distances being those the program computes with whatever the
    C library's [pow] returns. *)
Theorem douglas_peucker_two_points depth : forall p0 medio pl epsilon r,
  _douglas_peucker depth (p0 :: medio ++ [pl]) epsilon = Ok r ->
  medio <> [] ->
  (r = [p0; pl] <-> forall p, In p medio -> cerca epsilon p0 pl p).
Proof.
  induction depth as [|depth IH]; intros p0 medio pl epsilon r H Hne;
    [discriminate|].
  set (puntos := p0 :: medio ++ [pl]) in *.
  assert (Hlen : 3 <= length puntos).
  { unfold puntos. simpl. rewrite length_app. simpl.
    destruct medio; [congruence | simpl; lia]. }
  rewrite douglas_peucker_S in H.
  replace (length puntos <=? 2) with false in H
    by (symmetry; apply Nat.leb_gt; lia).
  inv_bind H as [dmax imax] Hscan. cbn [fst snd] in H.
  destruct (Num.gtb dmax epsilon) eqn:Hgt.
  - inv_bind H as izquierda Hizq. inv_bind H as derecha Hder.
    injection H as <-.
    destruct imax as [|i].
    + (* nothing was above zero: the right half is the whole list *)
      destruct depth as [|depth']; [discriminate|].
      rewrite douglas_peucker_short in Hizq
        by (rewrite length_firstn; lia).
      injection Hizq as <-. cbn [skipn] in Hder.
      unfold puntos in *. cbn [firstn removelast app].
      now apply IH.
    + pose proof (scan_index _ _ _ Hscan) as [[_ [=]]|Hi].
      unfold puntos in Hscan. rewrite scan_scan_from in Hscan.
      assert (Hlm : i < length medio).
      { unfold puntos in Hi. simpl in Hi. rewrite length_app in Hi.
        simpl in Hi. lia. }
      destruct (nth_error medio i) as [x|] eqn:Hx;
        [|apply nth_error_None in Hx; lia].
      destruct (split_at _ _ _ Hx) as (Em & Ela).
      assert (Hxin : In x medio) by (eapply nth_error_In; eauto).
      rewrite Em in Hscan. rewrite <- Ela in Hscan at 3.
      destruct (scan_from_split p0 pl _ x _ dmax (PyInt 0, 0) 1 Hscan)
        as (m & _ & _ & _ & Hdx & _ & _); [simpl; lia | discriminate |].
      apply douglas_peucker_simplified in Hizq, Hder.
      destruct Hizq as (_ & _ & _ & Li). destruct Hder as (_ & _ & _ & Ld).
      rewrite length_firstn in Li. rewrite length_skipn in Ld.
      specialize (Li ltac:(lia)). specialize (Ld ltac:(lia)).
      split.
      * intros E. apply (f_equal (@length value)) in E.
        rewrite length_app, length_removelast in E. simpl in E. lia.
      * intros Hall. destruct (Hall x Hxin) as (d & Hd & Hle).
        rewrite Hdx in Hd. injection Hd as <-. congruence.
  - inv_bind H as q0 Hq0. inv_bind H as ql Hql. injection H as <-.
    assert (E0 : q0 = p0) by (unfold puntos, elem in Hq0; simpl in Hq0; congruence).
    assert (El : ql = pl).
    { unfold ultimo, elem in Hql.
      rewrite (nth_error_last _ p0) in Hql by (unfold puntos; discriminate).
      unfold puntos in Hql.
      change (p0 :: medio ++ [pl]) with ((p0 :: medio) ++ [pl]) in Hql.
      rewrite last_last in Hql. congruence. }
    subst q0 ql. split; [intros _|reflexivity].
    eapply scan_cerca; eauto.
Qed.

End TwoPoints.

Section TwoPointsExamples.
Local Open Scope nat_scope.

Lemma douglas_peucker_two_points_witness :
  [punto_int 0 0; punto_int 0 10] = [punto_int 0 0; punto_int 0 10] <->
  forall p, In p [punto (PyInt 0) (decimal 5001 3)] ->
            cerca (decimal 1 2) (punto_int 0 0) (punto_int 0 10) p.
Proof.
  apply (douglas_peucker_two_points 3 (punto_int 0 0)
           [punto (PyInt 0) (decimal 5001 3)] (punto_int 0 10) (decimal 1 2)).
  - vm_compute. reflexivity.
  - discriminate.
Defined.
End TwoPointsExamples.

Section Configured.
Context {L : Libm}.
Local Open Scope nat_scope.

(** X17. At the tolerance the program is configured with, the ring normalizer
    returns for every ring on which the distance evaluator does, within a
    recursion depth of one more than the number of points. *)
Theorem simplificar_anillo_returns anillo :
  distance_defined anillo ->
  exists r, _simplificar_anillo (S (length anillo)) anillo EPSILON = Ok r.
Proof.
  intros Hd.
  destruct (douglas_peucker_returns (length anillo) anillo EPSILON) as (s & Hs);
    [reflexivity | assumption | lia |].
  unfold _simplificar_anillo. rewrite Hs. cbn [bind].
  destruct (length s <? 4); eauto.
Qed.

End Configured.

Section ConfiguredExamples.
Local Open Scope nat_scope.

Lemma simplificar_anillo_returns_witness :
  exists r, _simplificar_anillo (S (length casi_recto)) casi_recto EPSILON = Ok r.
Proof.
  apply (simplificar_anillo_returns casi_recto).
  apply distance_defined_casi_recto.
Defined.
End ConfiguredExamples.
